(** * SQLMaker: the schema-design core of [DatabaseDesigner]

    A shallow embedding of the schema store, the relationship engine and
    the DDL generator of [src/temp.js], with the properties the design
    document states about them.

    Conventions of the embedding.
    - JavaScript strings are [string], the text in UTF-8, so that the
      characters below 128 are the ASCII range and concatenation is
      concatenation.  [String.prototype.toLowerCase] and
      [String.prototype.trim] are the platform's: the development is
      parametric in them ([JS.Strings]) and says which of their
      properties a statement rests on ([LowerKeepsSuffix],
      [TrimOnAscii]).  [Ascii7] is the platform restricted to ASCII, on
      which the examples run.
    - A property that a JavaScript object may lack is an [option]; [None]
      is [undefined].
    - React state is a record; a handler is a function from the state it
      closes over to the state after its setters have run.
    - Identifiers drawn from [crypto.randomUUID], [Date.now] and
      [Math.random] are inputs of the handler that draws them. *)

From Stdlib Require Import Ascii String.
From stdpp Require Import base option list strings pretty gmap.

(** ** JavaScript primitives *)

Module JS.

(** What a handler leaves behind: it returns, it throws, or (for a
    [while] loop measured by fuel) it is still running. *)
Inductive Outcome (A : Type) : Type :=
| Done (a : A)
| Threw (e : string)
| Running.
Global Arguments Done {A} a.
Global Arguments Threw {A} e.
Global Arguments Running {A}.

(** [String.prototype.toLowerCase] and [String.prototype.trim], as the
    platform running the component provides them. *)
Class Strings : Type := {
  toLowerCase : string → string;
  trim : string → string
}.

(** Truthiness of a string and of an optional boolean property. *)
Definition truthy_str (s : string) : bool :=
  match s with EmptyString => false | _ => true end.

Definition truthy (b : option bool) : bool :=
  match b with Some true => true | _ => false end.

Definition truthy_nat (n : nat) : bool :=
  match n with O => false | _ => true end.

Definition truthy_opt_str (s : option string) : bool :=
  match s with Some s => truthy_str s | None => false end.

(** [a || b] on strings *)
Definition or_str (a b : string) : string :=
  if truthy_str a then a else b.

(** [Array.prototype.join] *)
Definition join (sep : string) (l : list string) : string :=
  String.concat sep l.

End JS.
Import JS.

(** ** The platform on the ASCII range *)

(** A platform to run the examples on. On a string of ASCII characters
    [toLowerCase] folds [A-Z] and [trim] strips tab, line feed, vertical
    tab, form feed, carriage return and space; [lower] and [strip] do
    so on every string, and are the platform's functions on the
    strings that [is_ascii] accepts only. *)
Module Ascii7.

Definition lower_char (c : ascii) : ascii :=
  let n := N_of_ascii c in
  if ((65 <=? n) && (n <=? 90))%N then ascii_of_N (n + 32) else c.

Fixpoint lower (s : string) : string :=
  match s with
  | EmptyString => EmptyString
  | String c s' => String (lower_char c) (lower s')
  end.

Fixpoint stripStart (s : string) : string :=
  match s with
  | EmptyString => EmptyString
  | String c s' => if Ascii.is_space c then stripStart s' else s
  end.

Definition stripEnd (s : string) : string :=
  String.rev (stripStart (String.rev s)).

Definition strip (s : string) : string := stripEnd (stripStart s).

Definition is_ascii_char (c : ascii) : bool := (N_of_ascii c <? 128)%N.

Fixpoint is_ascii (s : string) : bool :=
  match s with
  | EmptyString => true
  | String c s' => is_ascii_char c && is_ascii s'
  end.

Definition strings : Strings :=
  {| JS.toLowerCase := lower; JS.trim := strip |}.

End Ascii7.

(** ** Name resolver *)

(** The items [uniqueName] ranges over: anything with a [name]. *)
Class Named (A : Type) := nameOf : A → string.
Global Hint Mode Named ! : typeclass_instances.

(** The template literal [`${base}_${i}`]. *)
Definition suffixed (base : string) (i : nat) : string :=
  base +:+ "_" +:+ pretty i.

(** What the development asks of the platform's [toLowerCase]: an
    underscore and a decimal number appended to a string are left as
    they are, and leave the lower-casing of the string as it is.  (The
    one mapping of [toLowerCase] that looks past a letter is that of a
    final sigma, which asks whether a cased letter follows; an
    underscore is neither cased nor skipped.) *)
Definition LowerKeepsSuffix `{Strings} : Prop :=
  ∀ s i, toLowerCase (suffixed s i) = toLowerCase s +:+ "_" +:+ pretty i.

(** What it asks of the platform's [trim]: on a string of ASCII
    characters it strips the six ASCII white-space characters. *)
Definition TrimOnAscii `{Strings} : Prop :=
  ∀ s, Ascii7.is_ascii s = true → trim s = Ascii7.strip s.

Section resolver.
Context {platform : Strings}.

(** The [while] loop of [uniqueName], measured by [fuel]: [name] and [i]
    are the loop's two variables. *)
Fixpoint uniqueName_loop (fuel : nat) (base : string) (existing : gset string)
    (name : string) (i : nat) : option string :=
  match fuel with
  | O => None
  | S fuel' =>
      if decide (toLowerCase name ∈ existing)
      then uniqueName_loop fuel' base existing (suffixed base i) (S i)
      else Some name
  end.

(** [new Set(list.map(x => x.name.toLowerCase()))] *)
Definition existingNames `{Named A} (list : list A) : gset string :=
  list_to_set ((λ x, toLowerCase (nameOf x)) <$> list).

Definition uniqueName_fuel `{Named A} (fuel : nat) (base : string)
    (list : list A) : option string :=
  uniqueName_loop fuel base (existingNames list) base 1.

(** One more round than the collection has items is always enough
    ([uniqueName_returns] below). *)
Definition uniqueName `{Named A} (base : string) (list : list A)
    : option string :=
  uniqueName_fuel (S (length list)) base list.

(** The [k]-th name the loop tries: [base], [base_1], [base_2], ... *)
Definition attempt (base : string) (k : nat) : string :=
  match k with O => base | S _ => suffixed base k end.

(** [name] collides with an item of [list] under case-insensitive
    comparison. *)
Definition collides `{Named A} (name : string) (list : list A) : Prop :=
  ∃ x, x ∈ list ∧ toLowerCase (nameOf x) = toLowerCase name.

End resolver.

(** ** Data model *)

(** [DATA_TYPES] *)
Inductive DataType : Type :=
| INTEGER | BIGINT | TEXT | VARCHAR_255
| BOOLEAN | DATE | TIMESTAMP | REAL | DECIMAL.

Global Instance DataType_eq_dec : EqDecision DataType.
Proof. solve_decision. Defined.

Definition DATA_TYPES : list DataType :=
  [INTEGER; BIGINT; TEXT; VARCHAR_255; BOOLEAN; DATE; TIMESTAMP; REAL; DECIMAL].

(** The string a column type is in the source. *)
Definition typeName (t : DataType) : string :=
  match t with
  | INTEGER => "INTEGER" | BIGINT => "BIGINT" | TEXT => "TEXT"
  | VARCHAR_255 => "VARCHAR(255)" | BOOLEAN => "BOOLEAN" | DATE => "DATE"
  | TIMESTAMP => "TIMESTAMP" | REAL => "REAL" | DECIMAL => "DECIMAL"
  end.

(** [REL_TYPES] *)
Inductive RelType : Type := ONE_TO_ONE | ONE_TO_MANY | MANY_TO_MANY.

Global Instance RelType_eq_dec : EqDecision RelType.
Proof. solve_decision. Defined.

Definition REL_TYPES : list RelType := [ONE_TO_ONE; ONE_TO_MANY; MANY_TO_MANY].

Definition relTypeName (t : RelType) : string :=
  match t with
  | ONE_TO_ONE => "ONE_TO_ONE"
  | ONE_TO_MANY => "ONE_TO_MANY"
  | MANY_TO_MANY => "MANY_TO_MANY"
  end.

(** The values of the dialect [select]. *)
Inductive Dialect : Type := postgres | mysql | sqlite.

Global Instance Dialect_eq_dec : EqDecision Dialect.
Proof. solve_decision. Defined.

Definition dialectName (d : Dialect) : string :=
  match d with
  | postgres => "postgres" | mysql => "mysql" | sqlite => "sqlite"
  end.

Module Field.
Record t : Type := mk {
  id : string;
  name : string;
  type : DataType;
  isPrimary : option bool;
  isNull : option bool;
  isUnique : option bool;
  autoIncrement : option bool;
  default : option string;
  isForeignKey : option bool;
  references : option string
}.

(** [{ ...f, isUnique: b }] *)
Definition with_isUnique (b : bool) (f : t) : t :=
  mk (id f) (name f) (type f) (isPrimary f) (isNull f) (Some b)
     (autoIncrement f) (default f) (isForeignKey f) (references f).

Global Instance eq_dec : EqDecision t.
Proof. solve_decision. Defined.
End Field.

Module Table.
Record t : Type := mk {
  id : string;
  name : string;
  fields : list Field.t
}.

Global Instance eq_dec : EqDecision t.
Proof. solve_decision. Defined.
End Table.

(** The table being edited in the modal: a table without its [id]. *)
Module TableDraft.
Record t : Type := mk {
  name : string;
  fields : list Field.t
}.
End TableDraft.

Module Relationship.
Record t : Type := mk {
  id : string;
  parentTableId : string;
  childTableId : string;
  parentField : string;
  childField : string;
  type : RelType
}.

Global Instance eq_dec : EqDecision t.
Proof. solve_decision. Defined.
End Relationship.

(** The relationship being edited in the modal. *)
Module RelDraft.
Record t : Type := mk {
  parentTableId : string;
  childTableId : string;
  parentField : string;
  childField : string;
  type : RelType
}.
End RelDraft.

Global Instance Field_named : Named Field.t := Field.name.
Global Instance Table_named : Named Table.t := Table.name.

(** The [useState] cells of [DatabaseDesigner]. *)
Record State : Type := mkState {
  tables : list Table.t;
  relationships : list Relationship.t;
  showTableModal : bool;
  editingTable : option string;
  tableDraft : option TableDraft.t;
  showRelModal : bool;
  relDraft : option RelDraft.t;
  dialect : Dialect;
  message : string
}.

Definition setTables (v : list Table.t) (st : State) : State :=
  mkState v (relationships st) (showTableModal st) (editingTable st)
    (tableDraft st) (showRelModal st) (relDraft st) (dialect st) (message st).

Definition setRelationships (v : list Relationship.t) (st : State) : State :=
  mkState (tables st) v (showTableModal st) (editingTable st)
    (tableDraft st) (showRelModal st) (relDraft st) (dialect st) (message st).

Definition setShowTableModal (v : bool) (st : State) : State :=
  mkState (tables st) (relationships st) v (editingTable st)
    (tableDraft st) (showRelModal st) (relDraft st) (dialect st) (message st).

Definition setShowRelModal (v : bool) (st : State) : State :=
  mkState (tables st) (relationships st) (showTableModal st) (editingTable st)
    (tableDraft st) v (relDraft st) (dialect st) (message st).

Definition setDialect (v : Dialect) (st : State) : State :=
  mkState (tables st) (relationships st) (showTableModal st) (editingTable st)
    (tableDraft st) (showRelModal st) (relDraft st) v (message st).

Definition setMessage (v : string) (st : State) : State :=
  mkState (tables st) (relationships st) (showTableModal st) (editingTable st)
    (tableDraft st) (showRelModal st) (relDraft st) (dialect st) v.

(** The identifiers a handler draws while it runs: the [k]-th value of
    [crypto.randomUUID?.() || String(Date.now())], of [String(Date.now())]
    and of [Math.random().toString(36).slice(2)]. *)
Module Entropy.
Record t : Type := mk {
  newId : nat → string;
  now : nat → string;
  random : nat → string
}.
End Entropy.

Definition dquote : string := String "034"%char EmptyString.
Definition newline : string := String "010"%char EmptyString.

Definition DEFAULT_FIELD (e : Entropy.t) : Field.t :=
  {| Field.id := Entropy.now e 0 +:+ Entropy.random e 0;
     Field.name := "id";
     Field.type := INTEGER;
     Field.isPrimary := Some true;
     Field.isNull := Some false;
     Field.isUnique := Some false;
     Field.autoIncrement := Some true;
     Field.default := Some EmptyString;
     Field.isForeignKey := None;
     Field.references := None |}.

(** [tables.find(t => t.id === id)] *)
Definition findTable (id : string) (ts : list Table.t) : option Table.t :=
  List.find (λ t, bool_decide (Table.id t = id)) ts.

(** ** Schema store *)

(** The handlers of the component close over its state and run on its
    platform. *)
Section designer.
Context {platform : Strings}.

(** The messages [saveTable] rejects a draft with. *)
Definition tableErrors : list string :=
  [ "Table name required"; "Table name already exists";
    "At least one field required"; "Primary key required";
    "Duplicate field names" ].

(** [saveTable]: the five checks in the order of the source, each
    returning after [setMessage]; then the update of the table being
    edited, or the creation of a table. With no draft in the modal,
    [tableDraft.name] throws. *)
Definition saveTable (e : Entropy.t) (st : State) : Outcome State :=
  match tableDraft st with
  | None => Threw "TypeError"
  | Some draft =>
    if negb (truthy_str (trim (TableDraft.name draft))) then
      Done (setMessage "Table name required" st)
    else
    let nameLower := toLowerCase (trim (TableDraft.name draft)) in
    let nameConflict :=
      existsb (λ t, bool_decide (toLowerCase (trim (Table.name t)) = nameLower)
                    && bool_decide (Some (Table.id t) ≠ editingTable st))
              (tables st) in
    if nameConflict then
      Done (setMessage "Table name already exists" st)
    else if negb (truthy_nat (length (TableDraft.fields draft))) then
      Done (setMessage "At least one field required" st)
    else if negb (existsb (λ f, truthy (Field.isPrimary f))
                          (TableDraft.fields draft)) then
      Done (setMessage "Primary key required" st)
    else
    let names := (λ f, toLowerCase (Field.name f)) <$> TableDraft.fields draft in
    if bool_decide (size (list_to_set names : gset string) ≠ length names) then
      Done (setMessage "Duplicate field names" st)
    else
    let create :=
      let newTable :=
        Table.mk (Entropy.newId e 0) (TableDraft.name draft)
                 (TableDraft.fields draft) in
      setMessage "Table created" (setTables (tables st ++ [newTable]) st) in
    let st' :=
      match editingTable st with
      | Some editing =>
          if truthy_str editing then
            setMessage "Table updated"
              (setTables
                 ((λ t, if bool_decide (Table.id t = editing)
                        then Table.mk editing (TableDraft.name draft)
                                      (TableDraft.fields draft)
                        else t) <$> tables st) st)
          else create
      | None => create
      end in
    Done (setShowTableModal false st')
  end.

(** [deleteTable]: nothing for an id the store does not have. *)
Definition deleteTable (tableId : string) (st : State) : State :=
  match findTable tableId (tables st) with
  | None => st
  | Some t =>
      setMessage
        ("Deleted table " +:+ dquote +:+ Table.name t +:+ dquote
           +:+ " and related relationships")
        (setRelationships
           (filter (λ r, Relationship.parentTableId r ≠ tableId
                         ∧ Relationship.childTableId r ≠ tableId)
                   (relationships st))
           (setTables (filter (λ x, Table.id x ≠ tableId) (tables st)) st))
  end.

(** ** Relationship engine *)

(** [{ ...relDraft, id, parentField, childField }] *)
Definition relOfDraft (d : RelDraft.t) (id parentField childField : string)
    : Relationship.t :=
  Relationship.mk id (RelDraft.parentTableId d) (RelDraft.childTableId d)
    parentField childField (RelDraft.type d).

(** [parent.fields.find(f => f.isPrimary) || parent.fields[0]];
    [None] is [undefined]. *)
Definition parentPK (parent : Table.t) : option Field.t :=
  match List.find (λ f, truthy (Field.isPrimary f)) (Table.fields parent) with
  | Some f => Some f
  | None => head (Table.fields parent)
  end.

(** [relDraft.childField?.trim() || `${parent.name.toLowerCase()}_id`] *)
Definition fkName (d : RelDraft.t) (parent : Table.t) : string :=
  or_str (trim (RelDraft.childField d))
         (toLowerCase (Table.name parent) +:+ "_id").

(** [t || d] on column types: a type is truthy when its name is. *)
Definition or_type (t d : DataType) : DataType :=
  if truthy_str (typeName t) then t else d.

Definition sameName (a b : string) : bool :=
  bool_decide (toLowerCase a = toLowerCase b).

(** The join table of the [MANY_TO_MANY] branch. *)
Definition joinTable (e : Entropy.t) (joinName : string)
    (parent child : Table.t) : Table.t :=
  {| Table.id := Entropy.newId e 0;
     Table.name := joinName;
     Table.fields :=
       [ DEFAULT_FIELD e;
         {| Field.id := Entropy.now e 1 +:+ "a";
            Field.name := toLowerCase (Table.name parent) +:+ "_id";
            Field.type := INTEGER;
            Field.isPrimary := None; Field.isNull := None;
            Field.isUnique := None; Field.autoIncrement := None;
            Field.default := None;
            Field.isForeignKey := Some true;
            Field.references := Some (Table.id parent) |};
         {| Field.id := Entropy.now e 2 +:+ "b";
            Field.name := toLowerCase (Table.name child) +:+ "_id";
            Field.type := INTEGER;
            Field.isPrimary := None; Field.isNull := None;
            Field.isUnique := None; Field.autoIncrement := None;
            Field.default := None;
            Field.isForeignKey := Some true;
            Field.references := Some (Table.id child) |} ] |}.

(** The field pushed onto the child when it has no column of that name. *)
Definition foreignKeyField (e : Entropy.t) (name : string) (pk : Field.t)
    (parent : Table.t) (type : RelType) : Field.t :=
  {| Field.id := Entropy.now e 0;
     Field.name := name;
     Field.type := or_type (Field.type pk) INTEGER;
     Field.isPrimary := None;
     Field.isNull := Some false;
     Field.isUnique := Some (bool_decide (type = ONE_TO_ONE));
     Field.autoIncrement := None;
     Field.default := None;
     Field.isForeignKey := Some true;
     Field.references := Some (Table.id parent) |}.

(** The child after the branch on [childHas]. The source pushes onto the
    array the stored child owns, [updatedChild] being a shallow copy;
    the stored child is replaced by [updatedChild] in the same handler,
    so the tables after the handler hold the new sequence once. A draft
    the child was saved from may own that array too; the modal replaces
    the draft before any handler reads it again. *)
Definition updatedChild (e : Entropy.t) (name : string) (pk : Field.t)
    (parent child : Table.t) (type : RelType) : Table.t :=
  let childHas :=
    existsb (λ f, sameName (Field.name f) name) (Table.fields child) in
  if negb childHas then
    Table.mk (Table.id child) (Table.name child)
      (Table.fields child ++ [foreignKeyField e name pk parent type])
  else if bool_decide (type = ONE_TO_ONE) then
    Table.mk (Table.id child) (Table.name child)
      ((λ f, if sameName (Field.name f) name
             then Field.with_isUnique true f else f) <$> Table.fields child)
  else child.

(** [saveRelationship]: the endpoint checks, then the join table of a
    [MANY_TO_MANY] draft, or the foreign key on the child. [parentPK] is
    dereferenced on both paths of the second branch before any setter
    runs, so a parent without fields makes the handler throw with the
    state as it was. *)
Definition saveRelationship (e : Entropy.t) (st : State) : Outcome State :=
  match relDraft st with
  | None => Threw "TypeError"
  | Some draft =>
    let parentTableId := RelDraft.parentTableId draft in
    let childTableId := RelDraft.childTableId draft in
    let type := RelDraft.type draft in
    if negb (truthy_str parentTableId) || negb (truthy_str childTableId)
       || bool_decide (parentTableId = childTableId) then
      Done (setMessage "Invalid parent/child tables" st)
    else
    match findTable parentTableId (tables st),
          findTable childTableId (tables st) with
    | Some parent, Some child =>
      if bool_decide (type = MANY_TO_MANY) then
        match uniqueName
                (Table.name parent +:+ "_" +:+ Table.name child +:+ "_join")
                (tables st) with
        | None => Running
        | Some joinName =>
          let newRel :=
            relOfDraft draft (Entropy.newId e 1)
              (RelDraft.parentField draft) (RelDraft.childField draft) in
          Done (setShowRelModal false
                 (setMessage
                    ("Created join table " +:+ dquote +:+ joinName +:+ dquote)
                    (setRelationships (relationships st ++ [newRel])
                       (setTables
                          (tables st ++ [joinTable e joinName parent child])
                          st))))
        end
      else
        match parentPK parent with
        | None => Threw "TypeError"
        | Some pk =>
          let name := fkName draft parent in
          let child' := updatedChild e name pk parent child type in
          let newRel :=
            relOfDraft draft (Entropy.newId e 0) (Field.name pk) name in
          Done (setMessage "Relationship saved"
                 (setShowRelModal false
                    (setRelationships (relationships st ++ [newRel])
                       (setTables
                          ((λ t, if bool_decide (Table.id t = Table.id child)
                                 then child' else t) <$> tables st)
                          st))))
        end
    | _, _ => Done (setMessage "Parent or child table missing" st)
    end
  end.

(** The test of the join-table search in [deleteRelationship]. *)
Definition referencesEndpoint (rel : Relationship.t) (f : Field.t) : bool :=
  truthy (Field.isForeignKey f)
  && bool_decide (Field.references f
                    ∈ [Some (Relationship.parentTableId rel);
                       Some (Relationship.childTableId rel)]).

(** [relationships.find(r => r.id === relId)] *)
Definition findRelationship (relId : string) (rs : list Relationship.t)
    : option Relationship.t :=
  List.find (λ r, bool_decide (Relationship.id r = relId)) rs.

(** [deleteRelationship]: nothing for an id the store does not have,
    the join-table search for a [MANY_TO_MANY] record, the removal of
    the child's foreign keys for any other. *)
Definition deleteRelationship (relId : string) (st : State) : State :=
  match findRelationship relId (relationships st) with
  | None => st
  | Some rel =>
    let remaining :=
      filter (λ r, Relationship.id r ≠ relId) (relationships st) in
    if bool_decide (Relationship.type rel = MANY_TO_MANY) then
      let joinTable :=
        List.find (λ t, existsb (referencesEndpoint rel) (Table.fields t))
                  (tables st) in
      let st1 :=
        match joinTable with
        | Some j => setTables (filter (λ t, Table.id t ≠ Table.id j) (tables st)) st
        | None => st
        end in
      setMessage "Deleted M:N relationship and join table"
        (setRelationships remaining st1)
    else
      let st1 :=
        match findTable (Relationship.childTableId rel) (tables st) with
        | Some child =>
          let newChild :=
            Table.mk (Table.id child) (Table.name child)
              (filter (λ f, ¬ (truthy (Field.isForeignKey f) = true
                               ∧ Field.references f
                                 = Some (Relationship.parentTableId rel)))
                      (Table.fields child)) in
          setTables ((λ t, if bool_decide (Table.id t = Table.id child)
                           then newChild else t) <$> tables st) st
        | None => st
        end in
      setMessage "Deleted relationship" (setRelationships remaining st1)
  end.

(** ** DDL generator *)

(** [escapeId] of [generateSQL] *)
Definition escapeId (forDialect : Dialect) (n : string) : string :=
  if bool_decide (forDialect = mysql)
  then "`" +:+ n +:+ "`"
  else dquote +:+ n +:+ dquote.

(** The body of the first [t.fields.forEach]: the definition of one
    column, [parts] growing by [push]. *)
Definition columnDef (forDialect : Dialect) (f : Field.t) : string :=
  let parts :=
    [escapeId forDialect (Field.name f) +:+ " " +:+ typeName (Field.type f)] in
  let parts :=
    if truthy (Field.isPrimary f) then parts ++ ["PRIMARY KEY"] else parts in
  let parts :=
    if negb (truthy (Field.isNull f)) && negb (truthy (Field.isPrimary f))
    then parts ++ ["NOT NULL"] else parts in
  let parts :=
    if truthy (Field.isUnique f) then parts ++ ["UNIQUE"] else parts in
  let parts :=
    match Field.default f with
    | Some d => if truthy_str d
                then parts ++ ["DEFAULT '" +:+ d +:+ "'"] else parts
    | None => parts
    end in
  "  " +:+ join " " parts.

(** [parent.fields.find(p => p.isPrimary)?.name || 'id'] *)
Definition referencedKey (parent : Table.t) : string :=
  or_str
    (from_option Field.name EmptyString
       (List.find (λ p, truthy (Field.isPrimary p)) (Table.fields parent)))
    "id".

(** The filter of the second loop: [f.isForeignKey && f.references]. *)
Definition isLinked (f : Field.t) : bool :=
  truthy (Field.isForeignKey f) && truthy_opt_str (Field.references f).

(** The line the second loop pushes for [fk] once [parent] is found. *)
Definition foreignKeyDef (forDialect : Dialect) (fk : Field.t)
    (parent : Table.t) : string :=
  "  ,FOREIGN KEY (" +:+ escapeId forDialect (Field.name fk)
    +:+ ") REFERENCES " +:+ escapeId forDialect (Table.name parent)
    +:+ "(" +:+ escapeId forDialect (referencedKey parent) +:+ ")".

(** One step of the second loop over [defs]. *)
Definition pushForeignKey (forDialect : Dialect) (ts : list Table.t)
    (defs : list string) (fk : Field.t) : list string :=
  match Field.references fk with
  | Some ref =>
      match findTable ref ts with
      | Some parent => defs ++ [foreignKeyDef forDialect fk parent]
      | None => defs
      end
  | None => defs
  end.

(** [defs] of one table after both loops. *)
Definition tableDefs (forDialect : Dialect) (ts : list Table.t) (t : Table.t)
    : list string :=
  let defs :=
    foldl (λ defs f, defs ++ [columnDef forDialect f]) [] (Table.fields t) in
  foldl (pushForeignKey forDialect ts) defs
        (filter (λ f, isLinked f = true) (Table.fields t)).

(** The three lines [tables.forEach] pushes for one table. *)
Definition tableLines (forDialect : Dialect) (ts : list Table.t) (t : Table.t)
    : list string :=
  [ "CREATE TABLE " +:+ escapeId forDialect (Table.name t) +:+ " (";
    join ("," +:+ newline) (tableDefs forDialect ts t);
    ");" +:+ newline ].

(** [generateSQL]: [lines] after the header and after [tables.forEach],
    joined by line feeds. *)
Definition generateSQL (forDialect : Dialect) (ts : list Table.t) : string :=
  let lines :=
    [ "-- Generated by SQLMaker";
      "-- Dialect: " +:+ dialectName forDialect;
      EmptyString ] in
  let lines :=
    foldl (λ lines t, lines ++ tableLines forDialect ts t) lines ts in
  join newline lines.

(** ** Project documents *)

(** The value [JSON.stringify] is given and [JSON.parse] gives back. The
    text between the two is the platform's: parsing what was printed
    gives the document that was printed, with the properties that were
    [undefined] left out. *)
#[warnings="-register-all"]
Inductive json : Type :=
| JNull
| JBool (b : bool)
| JNum (n : Z)
| JStr (s : string)
| JArr (items : list json)
| JObj (props : list (string * json)).

(** [doc.key]; [None] is [undefined]. *)
Fixpoint lookupProp (key : string) (props : list (string * json))
    : option json :=
  match props with
  | [] => None
  | (k, v) :: rest => if String.eqb k key then Some v
                      else lookupProp key rest
  end.

Definition prop (key : string) (doc : json) : option json :=
  match doc with
  | JObj props => lookupProp key props
  | _ => None
  end.

Definition truthy_json (v : option json) : bool :=
  match v with
  | None | Some JNull => false
  | Some (JBool b) => b
  | Some (JNum n) => negb (bool_decide (n = 0%Z))
  | Some (JStr s) => truthy_str s
  | Some (JArr _) | Some (JObj _) => true
  end.

(** [v || d] on a property that may be missing *)
Definition or_json (v : option json) (d : json) : json :=
  match v with
  | Some j => if truthy_json v then j else d
  | None => d
  end.

(** An object literal as [JSON.stringify] prints it: a property whose
    value is [undefined] is left out. *)
Definition object (props : list (string * option json)) : json :=
  JObj (omap (λ kv, pair kv.1 <$> kv.2) props).

Definition field_to_json (f : Field.t) : json :=
  object
    [ ("id", Some (JStr (Field.id f)));
      ("name", Some (JStr (Field.name f)));
      ("type", Some (JStr (typeName (Field.type f))));
      ("isPrimary", JBool <$> Field.isPrimary f);
      ("isNull", JBool <$> Field.isNull f);
      ("isUnique", JBool <$> Field.isUnique f);
      ("autoIncrement", JBool <$> Field.autoIncrement f);
      ("default", JStr <$> Field.default f);
      ("isForeignKey", JBool <$> Field.isForeignKey f);
      ("references", JStr <$> Field.references f) ].

Definition table_to_json (t : Table.t) : json :=
  object
    [ ("id", Some (JStr (Table.id t)));
      ("name", Some (JStr (Table.name t)));
      ("fields", Some (JArr (field_to_json <$> Table.fields t))) ].

Definition relationship_to_json (r : Relationship.t) : json :=
  object
    [ ("parentTableId", Some (JStr (Relationship.parentTableId r)));
      ("childTableId", Some (JStr (Relationship.childTableId r)));
      ("parentField", Some (JStr (Relationship.parentField r)));
      ("childField", Some (JStr (Relationship.childField r)));
      ("type", Some (JStr (relTypeName (Relationship.type r))));
      ("id", Some (JStr (Relationship.id r))) ].

(** The document [exportJSON] prints: [{ tables, relationships, dialect }]. *)
Definition exportJSON (st : State) : json :=
  object
    [ ("tables", Some (JArr (table_to_json <$> tables st)));
      ("relationships",
        Some (JArr (relationship_to_json <$> relationships st)));
      ("dialect", Some (JStr (dialectName (dialect st)))) ].

(** Reading a parsed document as the records of the data model. [None]:
    the document holds a value the records have no place for. *)
Definition as_string (v : option json) : option string :=
  match v with Some (JStr s) => Some s | _ => None end.

Definition as_flag (v : option json) : option (option bool) :=
  match v with
  | None => Some None
  | Some (JBool b) => Some (Some b)
  | _ => None
  end.

Definition as_text (v : option json) : option (option string) :=
  match v with
  | None => Some None
  | Some (JStr s) => Some (Some s)
  | _ => None
  end.

Definition get_string (key : string) (doc : json) : option string :=
  as_string (prop key doc).

Definition get_flag (key : string) (doc : json) : option (option bool) :=
  as_flag (prop key doc).

Definition get_text (key : string) (doc : json) : option (option string) :=
  as_text (prop key doc).

Definition typeOfName (s : string) : option DataType :=
  List.find (λ t, bool_decide (typeName t = s)) DATA_TYPES.

Definition relTypeOfName (s : string) : option RelType :=
  List.find (λ t, bool_decide (relTypeName t = s)) REL_TYPES.

Definition dialectOfName (s : string) : option Dialect :=
  List.find (λ d, bool_decide (dialectName d = s)) [postgres; mysql; sqlite].

Definition field_of_json (doc : json) : option Field.t :=
  id ← get_string "id" doc;
  name ← get_string "name" doc;
  type ← get_string "type" doc ≫= typeOfName;
  isPrimary ← get_flag "isPrimary" doc;
  isNull ← get_flag "isNull" doc;
  isUnique ← get_flag "isUnique" doc;
  autoIncrement ← get_flag "autoIncrement" doc;
  default ← get_text "default" doc;
  isForeignKey ← get_flag "isForeignKey" doc;
  references ← get_text "references" doc;
  Some (Field.mk id name type isPrimary isNull isUnique autoIncrement
                 default isForeignKey references).

Definition table_of_json (doc : json) : option Table.t :=
  id ← get_string "id" doc;
  name ← get_string "name" doc;
  fields ← match prop "fields" doc with
           | Some (JArr items) => mapM field_of_json items
           | _ => None
           end;
  Some (Table.mk id name fields).

Definition relationship_of_json (doc : json) : option Relationship.t :=
  id ← get_string "id" doc;
  parentTableId ← get_string "parentTableId" doc;
  childTableId ← get_string "childTableId" doc;
  parentField ← get_string "parentField" doc;
  childField ← get_string "childField" doc;
  type ← get_string "type" doc ≫= relTypeOfName;
  Some (Relationship.mk id parentTableId childTableId parentField childField
                        type).

(** What [reader.onload] of [importJSON] does with the parsed document
    [data]. [nullMessage] is the message of the [TypeError] the engine
    raises on [null.tables]. The result is [None] when [data] holds
    tables, relationships or a dialect that are not of the data model. *)
Definition importJSON (nullMessage : string) (data : json) (st : State)
    : option State :=
  match data with
  | JNull => Some (setMessage ("Import failed: " +:+ nullMessage) st)
  | _ =>
    match prop "tables" data with
    | Some (JArr items) =>
      ts ← mapM table_of_json items;
      rs ← match or_json (prop "relationships" data) (JArr []) with
           | JArr items => mapM relationship_of_json items
           | _ => None
           end;
      d ← match or_json (prop "dialect" data) (JStr "postgres") with
          | JStr s => dialectOfName s
          | _ => None
          end;
      Some (setMessage "Project imported"
              (setDialect d (setRelationships rs (setTables ts st))))
    | _ => Some (setMessage "Import failed: Invalid file" st)
    end
  end.

(** ** Modals and drafts *)

Definition setEditingTable (v : option string) (st : State) : State :=
  mkState (tables st) (relationships st) (showTableModal st) v
    (tableDraft st) (showRelModal st) (relDraft st) (dialect st) (message st).

Definition setTableDraft (v : option TableDraft.t) (st : State) : State :=
  mkState (tables st) (relationships st) (showTableModal st) (editingTable st)
    v (showRelModal st) (relDraft st) (dialect st) (message st).

Definition setRelDraft (v : option RelDraft.t) (st : State) : State :=
  mkState (tables st) (relationships st) (showTableModal st) (editingTable st)
    (tableDraft st) (showRelModal st) v (dialect st) (message st).

(** [openCreateTable]: a draft named by [uniqueName('table', tables)]
    with the default field. *)
Definition openCreateTable (e : Entropy.t) (st : State) : Outcome State :=
  match uniqueName "table" (tables st) with
  | None => Running
  | Some name =>
      Done (setShowTableModal true
              (setTableDraft (Some (TableDraft.mk name [DEFAULT_FIELD e]))
                 (setEditingTable None st)))
  end.

(** [openEditTable]: nothing for an id the store does not have. The
    draft is [JSON.parse(JSON.stringify(t))], a copy of [t]; the [id]
    the copy carries is overwritten by [saveTable] on both of its
    paths, so the draft keeps the name and the fields. *)
Definition openEditTable (tableId : string) (st : State) : State :=
  match findTable tableId (tables st) with
  | None => st
  | Some t =>
      setShowTableModal true
        (setTableDraft (Some (TableDraft.mk (Table.name t) (Table.fields t)))
           (setEditingTable (Some tableId) st))
  end.

(** The field [addFieldToDraft] appends. *)
Definition blankField (e : Entropy.t) : Field.t :=
  {| Field.id := Entropy.newId e 0;
     Field.name := EmptyString;
     Field.type := TEXT;
     Field.isPrimary := Some false;
     Field.isNull := Some true;
     Field.isUnique := Some false;
     Field.autoIncrement := Some false;
     Field.default := Some EmptyString;
     Field.isForeignKey := None;
     Field.references := None |}.

(** [addFieldToDraft]; with no draft in the modal, [tableDraft.fields]
    throws. *)
Definition addFieldToDraft (e : Entropy.t) (st : State) : Outcome State :=
  match tableDraft st with
  | None => Threw "TypeError"
  | Some draft =>
      Done (setTableDraft
              (Some (TableDraft.mk (TableDraft.name draft)
                       (TableDraft.fields draft ++ [blankField e])))
              st)
  end.

(** The [key] and [value] the form passes to [updateFieldInDraft]: one
    constructor per input of a field row. *)
Inductive FieldPatch : Type :=
| PatchName (v : string)
| PatchType (v : DataType)
| PatchIsPrimary (v : bool)
| PatchIsNull (v : bool)
| PatchIsUnique (v : bool)
| PatchAutoIncrement (v : bool)
| PatchDefault (v : string).

(** [{ ...f, [key]: value }] *)
Definition patchField (p : FieldPatch) (f : Field.t) : Field.t :=
  match p with
  | PatchName v =>
      Field.mk (Field.id f) v (Field.type f) (Field.isPrimary f)
        (Field.isNull f) (Field.isUnique f) (Field.autoIncrement f)
        (Field.default f) (Field.isForeignKey f) (Field.references f)
  | PatchType v =>
      Field.mk (Field.id f) (Field.name f) v (Field.isPrimary f)
        (Field.isNull f) (Field.isUnique f) (Field.autoIncrement f)
        (Field.default f) (Field.isForeignKey f) (Field.references f)
  | PatchIsPrimary v =>
      Field.mk (Field.id f) (Field.name f) (Field.type f) (Some v)
        (Field.isNull f) (Field.isUnique f) (Field.autoIncrement f)
        (Field.default f) (Field.isForeignKey f) (Field.references f)
  | PatchIsNull v =>
      Field.mk (Field.id f) (Field.name f) (Field.type f) (Field.isPrimary f)
        (Some v) (Field.isUnique f) (Field.autoIncrement f)
        (Field.default f) (Field.isForeignKey f) (Field.references f)
  | PatchIsUnique v => Field.with_isUnique v f
  | PatchAutoIncrement v =>
      Field.mk (Field.id f) (Field.name f) (Field.type f) (Field.isPrimary f)
        (Field.isNull f) (Field.isUnique f) (Some v)
        (Field.default f) (Field.isForeignKey f) (Field.references f)
  | PatchDefault v =>
      Field.mk (Field.id f) (Field.name f) (Field.type f) (Field.isPrimary f)
        (Field.isNull f) (Field.isUnique f) (Field.autoIncrement f)
        (Some v) (Field.isForeignKey f) (Field.references f)
  end.

(** [updateFieldInDraft] *)
Definition updateFieldInDraft (fieldId : string) (p : FieldPatch) (st : State)
    : Outcome State :=
  match tableDraft st with
  | None => Threw "TypeError"
  | Some draft =>
      Done (setTableDraft
              (Some (TableDraft.mk (TableDraft.name draft)
                       ((λ f, if bool_decide (Field.id f = fieldId)
                              then patchField p f else f)
                          <$> TableDraft.fields draft)))
              st)
  end.

(** [removeFieldInDraft] *)
Definition removeFieldInDraft (fieldId : string) (st : State)
    : Outcome State :=
  match tableDraft st with
  | None => Threw "TypeError"
  | Some draft =>
      Done (setTableDraft
              (Some (TableDraft.mk (TableDraft.name draft)
                       (filter (λ f, Field.id f ≠ fieldId)
                               (TableDraft.fields draft))))
              st)
  end.

(** [openCreateRelationship]: the draft joins the first two tables. *)
Definition openCreateRelationship (st : State) : State :=
  match tables st with
  | first :: second :: _ =>
      setShowRelModal true
        (setRelDraft
           (Some (RelDraft.mk (Table.id first) (Table.id second)
                              EmptyString EmptyString ONE_TO_MANY))
           st)
  | _ => setMessage "Need at least two tables" st
  end.

(** ** Invariants of the store *)

(** What [saveTable] asks of a draft, beside a name that is free. *)
Definition validDraft (d : TableDraft.t) : Prop :=
  trim (TableDraft.name d) ≠ EmptyString
  ∧ TableDraft.fields d ≠ []
  ∧ (∃ f, f ∈ TableDraft.fields d ∧ Field.isPrimary f = Some true)
  ∧ NoDup ((λ f, toLowerCase (Field.name f)) <$> TableDraft.fields d).

(** The name of the draft is the name of no table but the one being
    edited, names compared as [saveTable] compares them. *)
Definition nameFree (st : State) (d : TableDraft.t) : Prop :=
  ∀ t, t ∈ tables st →
       Some (Table.id t) ≠ editingTable st →
       toLowerCase (trim (Table.name t))
       ≠ toLowerCase (trim (TableDraft.name d)).

(** The state [saveTable] leaves when every check has passed. *)
Definition committed (e : Entropy.t) (d : TableDraft.t) (st : State) : State :=
  let create :=
    setMessage "Table created"
      (setTables
         (tables st ++ [Table.mk (Entropy.newId e 0) (TableDraft.name d)
                                 (TableDraft.fields d)]) st) in
  setShowTableModal false
    match editingTable st with
    | Some editing =>
        if truthy_str editing then
          setMessage "Table updated"
            (setTables
               ((λ t, if bool_decide (Table.id t = editing)
                      then Table.mk editing (TableDraft.name d)
                                    (TableDraft.fields d)
                      else t) <$> tables st) st)
        else create
    | None => create
    end.

(** A table as [saveTable] lets it into the store. *)
Definition tableOk (t : Table.t) : Prop :=
  trim (Table.name t) ≠ EmptyString
  ∧ Table.fields t ≠ []
  ∧ (∃ f, f ∈ Table.fields t ∧ Field.isPrimary f = Some true)
  ∧ NoDup ((λ f, toLowerCase (Field.name f)) <$> Table.fields t).


(** Tables of different ids have different names. *)
Definition namesDistinct (ts : list Table.t) : Prop :=
  ∀ t u, t ∈ ts → u ∈ ts → Table.id t ≠ Table.id u →
         toLowerCase (trim (Table.name t)) ≠ toLowerCase (trim (Table.name u)).

(** Both ends of every relationship are tables of the store. *)
Definition endpointsExist (ts : list Table.t) (rs : list Relationship.t)
    : Prop :=
  ∀ r, r ∈ rs →
       is_Some (findTable (Relationship.parentTableId r) ts)
       ∧ is_Some (findTable (Relationship.childTableId r) ts).

(** An id names one table. *)
Definition idsResolve (ts : list Table.t) : Prop :=
  ∀ t, t ∈ ts → findTable (Table.id t) ts = Some t.

(** The field is a foreign key into the table of id [ref]. *)
Definition keyInto (ref : string) (f : Field.t) : Prop :=
  truthy (Field.isForeignKey f) = true ∧ Field.references f = Some ref.

(** ** Statements *)

Global Instance collides_dec `{Named A} (name : string) (list : list A) :
  Decision (collides name list).
Proof.
  refine (cast_if (decide (toLowerCase name ∈ existingNames list)));
    unfold collides, existingNames in *;
    rewrite elem_of_list_to_set, list_elem_of_fmap in *.
  - destruct e as (x & H1 & H2). exists x. by split.
  - intros (x & H1 & H2). apply n. exists x. by split.
Defined.

(** What makes [saveTable] turn a draft down, beside a name that is taken. *)
Definition invalidDraft (d : TableDraft.t) : Prop :=
  trim (TableDraft.name d) = EmptyString
  ∨ TableDraft.fields d = []
  ∨ (∀ f, f ∈ TableDraft.fields d → Field.isPrimary f ≠ Some true)
  ∨ (∃ i j f g, i ≠ j
       ∧ TableDraft.fields d !! i = Some f
       ∧ TableDraft.fields d !! j = Some g
       ∧ toLowerCase (Field.name f) = toLowerCase (Field.name g)).

(** The draft in the modal passes the endpoint checks of
    [saveRelationship]: both ids are set, they differ, and the store
    resolves them to [parent] and [child]. *)
Definition resolves (st : State) (d : RelDraft.t) (parent child : Table.t)
    : Prop :=
  relDraft st = Some d
  ∧ RelDraft.parentTableId d ≠ EmptyString
  ∧ RelDraft.childTableId d ≠ EmptyString
  ∧ RelDraft.parentTableId d ≠ RelDraft.childTableId d
  ∧ findTable (RelDraft.parentTableId d) (tables st) = Some parent
  ∧ findTable (RelDraft.childTableId d) (tables st) = Some child.


(** The foreign-key name as [saveRelationship] resolves it: the draft's
    [childField] with the white space around it trimmed if that leaves
    anything, else ["{parent.name}_id"] with the parent's name in lower
    case. *)
Definition resolvedName (d : RelDraft.t) (parent : Table.t) : string :=
  match trim (RelDraft.childField d) with
  | EmptyString => toLowerCase (Table.name parent) +:+ "_id"
  | typed => typed
  end.


(** A table has a foreign key that references an end of [rel]. *)
Definition hasEndpointKey (rel : Relationship.t) (t : Table.t) : Prop :=
  ∃ f, f ∈ Table.fields t
       ∧ Field.isForeignKey f = Some true
       ∧ (Field.references f = Some (Relationship.parentTableId rel)
          ∨ Field.references f = Some (Relationship.childTableId rel)).

(** The line of a column as the design document lays it out: the quoted
    name and the type, then each constraint that applies. *)
Definition columnLine (d : Dialect) (f : Field.t) : string :=
  "  " +:+ escapeId d (Field.name f) +:+ " " +:+ typeName (Field.type f)
  +:+ (if truthy (Field.isPrimary f) then " PRIMARY KEY" else EmptyString)
  +:+ (if negb (truthy (Field.isNull f)) && negb (truthy (Field.isPrimary f))
       then " NOT NULL" else EmptyString)
  +:+ (if truthy (Field.isUnique f) then " UNIQUE" else EmptyString)
  +:+ (match Field.default f with
       | Some v => if truthy_str v then " DEFAULT '" +:+ v +:+ "'"
                   else EmptyString
       | None => EmptyString
       end).

(** The table a foreign-key field references, when its [references] is
    set and the store has a table of that id. *)
Definition referencedTable (ts : list Table.t) (f : Field.t)
    : option Table.t :=
  if truthy (Field.isForeignKey f) then
    match Field.references f with
    | Some ref => if truthy_str ref then findTable ref ts else None
    | None => None
    end
  else None.

Definition foreignKeyClause (d : Dialect) (fk : Field.t) (parent : Table.t)
    : string :=
  "FOREIGN KEY (" +:+ escapeId d (Field.name fk)
    +:+ ") REFERENCES " +:+ escapeId d (Table.name parent)
    +:+ "(" +:+ escapeId d (referencedKey parent) +:+ ")".

Definition header (d : Dialect) : list string :=
  [ "-- Generated by SQLMaker"; "-- Dialect: " +:+ dialectName d; EmptyString ].

(** The statement of a table, given the lines of its foreign keys. *)
Definition statement (d : Dialect) (t : Table.t) (keys : list string)
    : list string :=
  [ "CREATE TABLE " +:+ escapeId d (Table.name t) +:+ " (";
    join ("," +:+ newline) ((columnLine d <$> Table.fields t) ++ keys);
    ");" +:+ newline ].

(** The foreign-key lines of a sequence of fields, as the second loop of
    [generateSQL] pushes them. *)
Definition foreignKeyDefs (d : Dialect) (ts : list Table.t)
    (fields : list Field.t) : list string :=
  foldl (pushForeignKey d ts) [] (filter (λ f, isLinked f = true) fields).

(** The foreign-key lines of a table as the design document lays them
    out: one per field that [referencedTable] resolves, in the order of
    the fields, the clause of the field behind what starts the line. *)
Definition foreignKeyLines (indent : string) (d : Dialect)
    (ts : list Table.t) (fields : list Field.t) : list string :=
  omap (λ f, (λ parent, indent +:+ foreignKeyClause d f parent)
               <$> referencedTable ts f) fields.

(** The text of a store as the design document lays it out: the header,
    then the statement of each table, its lines being those of its
    columns and then those of its foreign keys, joined by a comma and a
    line feed. *)
Definition document (indent : string) (d : Dialect) (ts : list Table.t)
    : string :=
  join newline
    (header d
     ++ (ts ≫= λ t,
           statement d t (foreignKeyLines indent d ts (Table.fields t)))).

End designer.

(** ** Sample projects *)

Module Sample.

Definition entropy : Entropy.t :=
  Entropy.mk (λ k, "uuid-" +:+ pretty k) (λ k, "17000000" +:+ pretty k)
             (λ k, "r" +:+ pretty k).

Definition pk (id : string) : Field.t :=
  Field.mk id "id" INTEGER (Some true) (Some false) (Some false) (Some true)
           (Some EmptyString) None None.

Definition column (id name : string) (type : DataType) : Field.t :=
  Field.mk id name type (Some false) (Some true) (Some false) (Some false)
           (Some EmptyString) None None.

Definition fk (id name ref : string) : Field.t :=
  Field.mk id name INTEGER None (Some false) (Some false) None None
           (Some true) (Some ref).

Definition users : Table.t := Table.mk "t1" "users" [pk "f1"].
Definition orders : Table.t :=
  Table.mk "t2" "orders" [pk "f2"; column "f3" "total" DECIMAL].
Definition tags : Table.t := Table.mk "t3" "tags" [pk "f4"].

Definition project (ts : list Table.t) (rs : list Relationship.t) : State :=
  mkState ts rs false None None false None postgres EmptyString.

Definition withTableDraft (d : TableDraft.t) (st : State) : State :=
  mkState (tables st) (relationships st) true None (Some d)
          (showRelModal st) (relDraft st) (dialect st) (message st).

Definition withRelDraft (d : RelDraft.t) (st : State) : State :=
  mkState (tables st) (relationships st) (showTableModal st)
          (editingTable st) (tableDraft st) true (Some d) (dialect st)
          (message st).

Definition shop : State := project [users; orders; tags] [].

End Sample.

(** ** Further sample projects *)

Module Fixture.

Definition linked : Table.t :=
  Table.mk "t2" "orders" [Sample.pk "f2"; Sample.fk "f5" "users_id" "t1"].

Definition owns : Relationship.t :=
  Relationship.mk "r1" "t1" "t2" "id" "users_id" ONE_TO_MANY.

Definition join : Table.t :=
  Table.mk "t4" "users_tags_join"
    [Sample.pk "f6"; Sample.fk "f7" "users_id" "t1";
     Sample.fk "f8" "tags_id" "t3"].

Definition tagged : Relationship.t :=
  Relationship.mk "r2" "t1" "t3" EmptyString EmptyString MANY_TO_MANY.

(** [users] with [orders] that references it. *)
Definition store : State := Sample.project [Sample.users; linked] [owns].

Definition audit : TableDraft.t :=
  TableDraft.mk "audit" [Sample.pk "f9"; Sample.column "f10" "note" TEXT].

Definition oneToMany : RelDraft.t :=
  RelDraft.mk "t1" "t2" EmptyString EmptyString ONE_TO_MANY.

Definition oneToOne : RelDraft.t :=
  RelDraft.mk "t1" "t2" EmptyString EmptyString ONE_TO_ONE.

Definition manyToMany : RelDraft.t :=
  RelDraft.mk "t1" "t3" EmptyString EmptyString MANY_TO_MANY.

Definition editing (id : string) (d : TableDraft.t) (st : State) : State :=
  mkState (tables st) (relationships st) true (Some id) (Some d)
          (showRelModal st) (relDraft st) (dialect st) (message st).

End Fixture.

(** * Properties *)

(** Membership in a list that is written out. *)
Ltac in_list :=
  repeat first [apply list_elem_of_here | apply list_elem_of_further].

(** ** Strings *)

Section strings.

Lemma string_app_length s1 s2 :
  String.length (s1 +:+ s2) = String.length s1 + String.length s2.
Proof.
  induction s1 as [|c s1 IH]; [done|].
  change (String c s1 +:+ s2) with (String c (s1 +:+ s2)).
  simpl. by rewrite IH.
Qed.

Lemma string_app_assoc (s1 s2 s3 : string) :
  (s1 +:+ s2) +:+ s3 = s1 +:+ (s2 +:+ s3).
Proof.
  induction s1 as [|c s1 IH]; [done|].
  change ((String c s1 +:+ s2) +:+ s3) with (String c ((s1 +:+ s2) +:+ s3)).
  by rewrite IH.
Qed.

Lemma string_app_nil_r (s : string) : s +:+ EmptyString = s.
Proof.
  induction s as [|c s IH]; [done|].
  change (String c s +:+ EmptyString) with (String c (s +:+ EmptyString)).
  by rewrite IH.
Qed.

Lemma rev_app_app s1 s2 acc :
  String.rev_app (s1 +:+ s2) acc = String.rev_app s2 (String.rev_app s1 acc).
Proof.
  revert acc. induction s1 as [|c s1 IH]; intros acc; [done|].
  change (String c s1 +:+ s2) with (String c (s1 +:+ s2)).
  cbn [String.rev_app]. apply IH.
Qed.

Lemma rev_app_rev_app s acc acc' :
  String.rev_app (String.rev_app s acc) acc' = String.rev_app acc (s +:+ acc').
Proof.
  revert acc acc'. induction s as [|c s IH]; intros acc acc'; [done|].
  cbn [String.rev_app]. rewrite IH. done.
Qed.

Lemma pretty_N_go_prefix x s : ∃ p, pretty_N_go x s = p +:+ s.
Proof.
  revert s. induction (N.lt_wf_0 x) as [x _ IH]; intros s.
  destruct (decide (x = 0)%N) as [->|Hx].
  - exists EmptyString. by rewrite pretty_N_go_0.
  - rewrite pretty_N_go_step by lia.
    destruct (IH (x `div` 10)%N ltac:(apply N.div_lt; lia)
                 (String (pretty_N_char (x `mod` 10)) s)) as [p ->].
    exists (p +:+ String (pretty_N_char (x `mod` 10)) EmptyString).
    by rewrite string_app_assoc.
Qed.

Lemma is_space_digit d : Ascii.is_space (pretty_N_char d) = false.
Proof. unfold pretty_N_char. by repeat case_match. Qed.

(** A number in decimal ends with a character that is not white space. *)
Lemma pretty_last (n : nat) :
  ∃ p c, pretty n = p +:+ String c EmptyString ∧ Ascii.is_space c = false.
Proof.
  unfold pretty, pretty_nat, pretty, pretty_N. case_decide as Hn.
  - by exists EmptyString, "0"%char.
  - rewrite pretty_N_go_step by lia.
    destruct (pretty_N_go_prefix (N.of_nat n `div` 10)
                (String (pretty_N_char (N.of_nat n `mod` 10)) EmptyString))
      as [p ->].
    eexists p, _. split; [done|apply is_space_digit].
Qed.

End strings.

(** ** The platform on the ASCII range *)

Section ascii.

Lemma ascii_lower_app s1 s2 :
  Ascii7.lower (s1 +:+ s2)
  = Ascii7.lower s1 +:+ Ascii7.lower s2.
Proof.
  induction s1 as [|c s1 IH]; [done|].
  change (String c s1 +:+ s2) with (String c (s1 +:+ s2)).
  cbn [Ascii7.lower]. rewrite IH. done.
Qed.

Lemma ascii_lower_char_digit d :
  Ascii7.lower_char (pretty_N_char d) = pretty_N_char d.
Proof. unfold pretty_N_char. by repeat case_match. Qed.

Lemma ascii_lower_pretty_N_go x s :
  Ascii7.lower s = s →
  Ascii7.lower (pretty_N_go x s) = pretty_N_go x s.
Proof.
  revert s. induction (N.lt_wf_0 x) as [x _ IH]; intros s Hs.
  destruct (decide (x = 0)%N) as [->|Hx].
  - by rewrite pretty_N_go_0.
  - rewrite pretty_N_go_step by lia.
    apply IH; [apply N.div_lt; lia|].
    cbn [Ascii7.lower]. by rewrite ascii_lower_char_digit, Hs.
Qed.

Lemma ascii_lower_pretty (i : nat) :
  Ascii7.lower (pretty i) = pretty i.
Proof.
  unfold pretty, pretty_nat, pretty, pretty_N.
  case_decide; [done|]. by apply ascii_lower_pretty_N_go.
Qed.

(** Lower-casing on the ASCII range leaves the suffix of [uniqueName]
    alone. *)
Lemma ascii_lowerKeepsSuffix : @LowerKeepsSuffix Ascii7.strings.
Proof.
  intros s i. unfold suffixed. cbn [toLowerCase Ascii7.strings].
  rewrite !ascii_lower_app, ascii_lower_pretty. done.
Qed.

Lemma ascii_trimOnAscii : @TrimOnAscii Ascii7.strings.
Proof. intros s _. reflexivity. Qed.

(** A string that neither starts nor ends with white space is its own
    trim. *)
Lemma ascii_strip_id a s b :
  Ascii.is_space a = false → Ascii.is_space b = false →
  Ascii7.strip (String a (s +:+ String b EmptyString))
  = String a (s +:+ String b EmptyString).
Proof.
  intros Ha Hb. unfold Ascii7.strip, Ascii7.stripEnd.
  cbn [Ascii7.stripStart]. rewrite Ha.
  change (String a (s +:+ String b EmptyString))
    with (String a s +:+ String b EmptyString).
  unfold String.rev at 2. rewrite rev_app_app.
  cbn [String.rev_app Ascii7.stripStart].
  rewrite Hb. unfold String.rev. cbn [String.rev_app].
  rewrite rev_app_rev_app. reflexivity.
Qed.

(** The names [uniqueName] makes of [table] are their own trim. *)
Lemma ascii_strip_attempt_table m :
  Ascii7.strip (attempt "table" m) = attempt "table" m.
Proof.
  destruct m as [|m].
  - apply (ascii_strip_id "t" "abl" "e"); reflexivity.
  - cbn [attempt]. unfold suffixed.
    destruct (pretty_last (S m)) as (p & c & -> & Hc).
    change ("table" +:+ "_" +:+ p +:+ String c EmptyString)
      with (String "t" ("able_" +:+ (p +:+ String c EmptyString))).
    rewrite <-string_app_assoc. by apply ascii_strip_id.
Qed.

Lemma is_ascii_app s1 s2 :
  Ascii7.is_ascii s1 = true → Ascii7.is_ascii s2 = true →
  Ascii7.is_ascii (s1 +:+ s2) = true.
Proof.
  intros H1 H2. induction s1 as [|c s1 IH]; [done|].
  change (String c s1 +:+ s2) with (String c (s1 +:+ s2)).
  cbn [Ascii7.is_ascii] in *. apply andb_true_iff in H1 as [Hc H1].
  by rewrite Hc, IH.
Qed.

Lemma is_ascii_digit d : Ascii7.is_ascii_char (pretty_N_char d) = true.
Proof. unfold pretty_N_char. by repeat case_match. Qed.

Lemma is_ascii_pretty_N_go x s :
  Ascii7.is_ascii s = true → Ascii7.is_ascii (pretty_N_go x s) = true.
Proof.
  revert s. induction (N.lt_wf_0 x) as [x _ IH]; intros s Hs.
  destruct (decide (x = 0)%N) as [->|Hx].
  - by rewrite pretty_N_go_0.
  - rewrite pretty_N_go_step by lia.
    apply IH; [apply N.div_lt; lia|].
    cbn [Ascii7.is_ascii]. by rewrite is_ascii_digit, Hs.
Qed.

Lemma is_ascii_pretty (i : nat) : Ascii7.is_ascii (pretty i) = true.
Proof.
  unfold pretty, pretty_nat, pretty, pretty_N.
  case_decide; [done|]. by apply is_ascii_pretty_N_go.
Qed.

Lemma is_ascii_attempt_table m : Ascii7.is_ascii (attempt "table" m) = true.
Proof.
  destruct m as [|m]; [done|]. cbn [attempt]. unfold suffixed.
  apply is_ascii_app; [done|]. apply is_ascii_app; [done|].
  apply is_ascii_pretty.
Qed.

End ascii.

(** ** The platform, whatever it is *)

Section properties.
Context {platform : Strings}.

(** The names [uniqueName] tries differ without case. *)
Lemma attempt_lower_inj base i j :
  LowerKeepsSuffix →
  toLowerCase (attempt base i) = toLowerCase (attempt base j) → i = j.
Proof.
  intros lower.
  assert (∀ k, toLowerCase (suffixed base (S k)) ≠ toLowerCase base) as Hne.
  { intros k Heq. apply (f_equal String.length) in Heq.
    rewrite lower, !string_app_length in Heq.
    simpl in Heq. lia. }
  destruct i as [|i], j as [|j]; cbn [attempt]; intros Heq.
  - done.
  - destruct (Hne j). done.
  - destruct (Hne i). done.
  - rewrite !lower in Heq.
    apply (inj (String.app _)), (inj (String.app _)), (inj pretty) in Heq.
    done.
Qed.

(** With [trim] as it is on the ASCII range, the names [uniqueName]
    makes of [table] are their own trim. *)
Lemma trim_attempt_table m :
  TrimOnAscii → trim (attempt "table" m) = attempt "table" m.
Proof.
  intros ascii. rewrite ascii by apply is_ascii_attempt_table.
  apply ascii_strip_attempt_table.
Qed.

(** ** Name resolver *)

Section uniqueName.
Context `{Named A}.
Implicit Types (base name : string) (list : list A).
Hypothesis lower : LowerKeepsSuffix.

Lemma collides_existing name list :
  collides name list ↔ toLowerCase name ∈ existingNames list.
Proof.
  unfold collides, existingNames.
  rewrite elem_of_list_to_set, list_elem_of_fmap.
  split; intros (x & H1 & H2); exists x; split; done.
Qed.

(** The loop stops at the first attempt that is free, if its fuel
    reaches that far. *)
Lemma uniqueName_loop_first fuel base (existing : gset string) k m :
  k ≤ m → m < k + fuel →
  toLowerCase (attempt base m) ∉ existing →
  (∀ j, k ≤ j < m → toLowerCase (attempt base j) ∈ existing) →
  uniqueName_loop fuel base existing (attempt base k) (S k)
  = Some (attempt base m).
Proof.
  revert k. induction fuel as [|fuel IH]; intros k Hkm Hfuel Hfree Hbusy.
  { lia. }
  cbn [uniqueName_loop]. case_decide as Hk.
  - destruct (decide (k = m)) as [->|Hne]; [done|].
    change (suffixed base (S k)) with (attempt base (S k)).
    apply IH; [lia..|done|]. intros j Hj. apply Hbusy. lia.
  - destruct (decide (k = m)) as [->|Hne]; [done|].
    destruct Hk. apply Hbusy. lia.
Qed.

(** More attempts than items: one of them is free. *)
Lemma attempt_free base list :
  ∃ m, m ≤ length list ∧ ¬ collides (attempt base m) list.
Proof.
  set (tried := (λ m, toLowerCase (attempt base m)) <$> seq 0 (S (length list))).
  set (names := (λ x, toLowerCase (nameOf x)) <$> list).
  destruct (decide (Exists (λ m, ¬ collides (attempt base m) list)
                           (seq 0 (S (length list))))) as [Hex|Hno].
  { apply Exists_exists in Hex as (m & Hm & Hfree).
    apply elem_of_seq in Hm. exists m. split; [lia|done]. }
  exfalso. apply not_Exists_Forall in Hno; [|apply _].
  assert (NoDup tried) as Hnodup.
  { apply NoDup_fmap_2_strong; [|apply NoDup_seq].
    intros i j _ _. by apply attempt_lower_inj. }
  assert (tried ⊆+ names) as Hsub.
  { apply NoDup_submseteq; [done|]. intros x Hx.
    apply list_elem_of_fmap in Hx as (m & -> & Hm).
    rewrite Forall_forall in Hno. specialize (Hno m Hm). cbn in Hno.
    apply dec_stable in Hno. destruct Hno as (y & Hy & Heq).
    apply list_elem_of_fmap. eauto. }
  apply submseteq_length in Hsub.
  unfold tried, names in Hsub. rewrite !length_fmap, length_seq in Hsub. lia.
Qed.

(** The first free attempt. *)
Lemma attempt_first_free base list :
  ∃ m, m ≤ length list ∧ ¬ collides (attempt base m) list
       ∧ ∀ j, j < m → collides (attempt base j) list.
Proof.
  destruct (attempt_free base list) as (m & Hm & Hfree).
  revert Hm Hfree. induction (lt_wf m) as [m _ IH]; intros Hm Hfree.
  destruct (decide (Exists (λ j, ¬ collides (attempt base j) list) (seq 0 m)))
    as [Hex|Hno].
  - apply Exists_exists in Hex as (j & Hj & Hjfree).
    apply elem_of_seq in Hj. apply (IH j); [lia..|done].
  - exists m. split_and!; [done..|]. intros j Hj.
    apply not_Exists_Forall in Hno; [|apply _].
    rewrite Forall_forall in Hno. apply dec_stable, Hno, elem_of_seq. lia.
Qed.

Lemma uniqueName_fuel_first fuel base list m :
  m < fuel →
  ¬ collides (attempt base m) list →
  (∀ j, j < m → collides (attempt base j) list) →
  uniqueName_fuel fuel base list = Some (attempt base m).
Proof.
  intros Hfuel Hfree Hbusy. unfold uniqueName_fuel.
  apply (uniqueName_loop_first fuel base (existingNames list) 0 m); [lia..| |].
  - by rewrite <-collides_existing.
  - intros j Hj. apply collides_existing, Hbusy. lia.
Qed.

(** [uniqueName] returns: the first free attempt is within its fuel. *)
Lemma uniqueName_returns base list :
  ∃ m, uniqueName base list = Some (attempt base m)
       ∧ ¬ collides (attempt base m) list
       ∧ ∀ j, j < m → collides (attempt base j) list.
Proof.
  destruct (attempt_first_free base list) as (m & Hm & Hfree & Hbusy).
  exists m. split; [|done]. apply uniqueName_fuel_first; [lia|done..].
Qed.

(** Fuel only decides whether the loop is seen to stop, never where. *)
Lemma uniqueName_loop_fuel fuel fuel' base existing name i r :
  uniqueName_loop fuel base existing name i = Some r →
  fuel ≤ fuel' →
  uniqueName_loop fuel' base existing name i = Some r.
Proof.
  revert fuel' name i. induction fuel as [|fuel IH]; intros fuel' name i Hr Hle.
  { done. }
  destruct fuel' as [|fuel']; [lia|].
  cbn [uniqueName_loop] in *. case_decide; [|done].
  apply IH; [done|lia].
Qed.

End uniqueName.

(** C1. [uniqueName(base, list)] returns, whatever [base] and [list] are,
    on a platform whose [toLowerCase] leaves the suffix [_k] alone.
    The name it returns is not the name of an item of [list] under
    case-insensitive comparison; it is [base] itself when [base] is not
    such a name; otherwise it is [base_k] for the first [k = 1, 2, ...]
    whose [base_k] is not such a name. The result is a function of
    [base] and [list] alone: the loop returns it within [length list + 1]
    rounds, and no number of rounds makes it return anything else. *)
Theorem uniqueName_spec `{Named A} (base : string) (list : list A) :
  LowerKeepsSuffix →
  ∃ name,
    uniqueName base list = Some name
    ∧ ¬ collides name list
    ∧ (¬ collides base list → name = base)
    ∧ (collides base list →
       ∃ k, 1 ≤ k ∧ name = suffixed base k
            ∧ ∀ j, 1 ≤ j < k → collides (suffixed base j) list)
    ∧ (∀ fuel name', uniqueName_fuel fuel base list = Some name' →
                     name' = name).
Proof.
  intros lower.
  destruct (uniqueName_returns lower base list) as (m & Hrun & Hfree & Hbusy).
  exists (attempt base m).
  split_and!; [done|done| | |].
  - intros Hbase. destruct m as [|m]; [done|].
    destruct Hbase. apply (Hbusy 0). lia.
  - intros Hbase. destruct m as [|m]; [done|].
    exists (S m). split_and!; [lia|done|].
    intros [|j] Hj; [lia|]. apply (Hbusy (S j)). lia.
  - intros fuel name' Hfuel.
    pose proof (uniqueName_loop_fuel _ (fuel `max` S (length list)) _ _ _ _ _
                  Hfuel ltac:(lia)) as H1.
    pose proof (uniqueName_loop_fuel _ (fuel `max` S (length list)) _ _ _ _ _
                  Hrun ltac:(lia)) as H2.
    congruence.
Qed.

(** ** Schema store *)

Section sets.

Lemma size_list_to_set_le (l : list string) :
  size (list_to_set l : gset string) ≤ length l.
Proof.
  induction l as [|x l IH]; [done|].
  rewrite list_to_set_cons. cbn [length].
  rewrite size_union_alt, size_singleton.
  pose proof (subseteq_size (list_to_set l ∖ {[x]}) (list_to_set l : gset string)
                (subseteq_difference_l _ _ _ (reflexivity _))). lia.
Qed.

(** [new Set(names).size === names.length] only when no name repeats. *)
Lemma size_list_to_set_NoDup (l : list string) :
  size (list_to_set l : gset string) = length l → NoDup l.
Proof.
  induction l as [|x l IH]; intros Hsize; [constructor|].
  rewrite list_to_set_cons in Hsize. cbn [length] in Hsize.
  destruct (decide (x ∈ l)) as [Hin|Hout].
  - assert ({[x]} ∪ list_to_set l = (list_to_set l : gset string)) as Heq.
    { apply subseteq_union_1_L. set_solver. }
    rewrite Heq in Hsize. pose proof (size_list_to_set_le l). lia.
  - rewrite size_union, size_singleton in Hsize by set_solver.
    constructor; [done|]. apply IH. lia.
Qed.

End sets.

Lemma truthy_true (b : option bool) : truthy b = true ↔ b = Some true.
Proof. destruct b as [[]|]; cbn; split; congruence. Qed.

(** [saveTable] either reports one of its errors and changes nothing
    else, or the draft has passed every check. *)
Lemma saveTable_checks e st d :
  tableDraft st = Some d →
  (∃ msg, msg ∈ tableErrors ∧ saveTable e st = Done (setMessage msg st))
  ∨ (trim (TableDraft.name d) ≠ EmptyString
     ∧ TableDraft.fields d ≠ []
     ∧ (∃ f, f ∈ TableDraft.fields d ∧ Field.isPrimary f = Some true)
     ∧ NoDup ((λ f, toLowerCase (Field.name f)) <$> TableDraft.fields d)).
Proof.
  intros Hd. unfold saveTable. rewrite Hd.
  destruct (truthy_str (trim (TableDraft.name d))) eqn:Hname; cbn [negb].
  2: { left. eexists. split; [|done]. in_list. }
  destruct (existsb _ (tables st)) eqn:Hconflict.
  { left. eexists. split; [|done]. in_list. }
  destruct (truthy_nat (length (TableDraft.fields d))) eqn:Hlen; cbn [negb].
  2: { left. eexists. split; [|done]. in_list. }
  destruct (existsb _ (TableDraft.fields d)) eqn:Hprimary; cbn [negb].
  2: { left. eexists. split; [|done]. in_list. }
  case_bool_decide as Hdup.
  { left. eexists. split; [|done]. in_list. }
  right. split_and!.
  - intros Heq. by rewrite Heq in Hname.
  - intros Heq. by rewrite Heq in Hlen.
  - apply existsb_exists in Hprimary as (f & Hf & Hp).
    exists f. split; [by rewrite list_elem_of_In|by apply truthy_true].
  - by apply size_list_to_set_NoDup.
Qed.

(** C2. A draft with an empty trimmed name, or no field, or no field
    marked primary, or two fields of the same name under
    case-insensitive comparison, is turned down by [saveTable] with one
    of its validation messages, and the handler sets nothing but the
    message: tables, relationships and every other cell of the state
    are what they were. *)
Theorem saveTable_rejects_invalid (e : Entropy.t) (st : State)
    (d : TableDraft.t) :
  tableDraft st = Some d →
  invalidDraft d →
  ∃ st', saveTable e st = Done st'
         ∧ message st' ∈ tableErrors
         ∧ tables st' = tables st
         ∧ relationships st' = relationships st
         ∧ st' = setMessage (message st') st.
Proof.
  intros Hd Hinv.
  destruct (saveTable_checks e st d Hd)
    as [(msg & Hmsg & Hrun)|(Hname & Hfields & (f & Hf & Hp) & Hnodup)].
  { exists (setMessage msg st). done. }
  exfalso. destruct Hinv as [Hn|[Hz|[Hnp|(i & j & x & y & Hij & Hi & Hj & Hxy)]]].
  - done.
  - done.
  - by apply (Hnp f).
  - apply Hij. eapply NoDup_lookup; [exact Hnodup| |].
    + rewrite list_lookup_fmap, Hi. done.
    + rewrite list_lookup_fmap, Hj. cbn. by rewrite Hxy.
Qed.

(** ** Relationship engine *)

Section findTable.
Implicit Types (ts : list Table.t) (t : Table.t).

Lemma findTable_Some id ts t :
  findTable id ts = Some t → t ∈ ts ∧ Table.id t = id.
Proof.
  intros Hfind. apply find_some in Hfind as [Hin Hid].
  split; [by apply list_elem_of_In|by apply bool_decide_eq_true in Hid].
Qed.

Lemma findTable_None id ts :
  findTable id ts = None ↔ ∀ t, t ∈ ts → Table.id t ≠ id.
Proof.
  split.
  - intros Hfind t Hin Hid. apply list_elem_of_In in Hin.
    pose proof (find_none _ _ Hfind t Hin) as Hno. cbn in Hno.
    by apply bool_decide_eq_false in Hno.
  - intros Hall. induction ts as [|t ts IH]; [done|].
    cbn. rewrite bool_decide_false by (apply Hall; left).
    apply IH. intros t' Hin. apply Hall. by right.
Qed.

Lemma findTable_app_l id ts ts' t :
  findTable id ts = Some t → findTable id (ts ++ ts') = Some t.
Proof.
  induction ts as [|x ts IH]; [done|]. cbn.
  case_bool_decide; [done|]. apply IH.
Qed.

(** [tables.map(t => t.id === child.id ? child' : t)] puts [child']
    where the store resolved [child]. *)
Lemma findTable_replace ts child child' :
  findTable (Table.id child) ts = Some child →
  Table.id child' = Table.id child →
  findTable (Table.id child)
    ((λ t, if bool_decide (Table.id t = Table.id child) then child' else t)
       <$> ts)
  = Some child'.
Proof.
  intros Hfind Hid. induction ts as [|x ts IH]; [done|].
  cbn in Hfind |- *. case_bool_decide as Hx.
  - cbn. by rewrite bool_decide_true.
  - cbn. rewrite bool_decide_false by done. by apply IH.
Qed.

Lemma findTable_replace_ne id ts child child' :
  id ≠ Table.id child →
  Table.id child' = Table.id child →
  findTable id
    ((λ t, if bool_decide (Table.id t = Table.id child) then child' else t)
       <$> ts)
  = findTable id ts.
Proof.
  intros Hne Hid. unfold findTable. induction ts as [|x ts IH]; [done|].
  rewrite fmap_cons.
  destruct (decide (Table.id x = Table.id child)) as [Hx|Hx].
  - rewrite (bool_decide_true _ Hx). cbn [List.find].
    rewrite !bool_decide_false by congruence. apply IH.
  - rewrite (bool_decide_false _ Hx). cbn [List.find].
    case_bool_decide; [done|]. apply IH.
Qed.

Lemma findTable_filter_ne id gone ts :
  id ≠ gone →
  findTable id (filter (λ t, Table.id t ≠ gone) ts) = findTable id ts.
Proof.
  intros Hne. induction ts as [|x ts IH]; [done|].
  rewrite filter_cons. case_decide as Hx.
  - cbn. case_bool_decide; [done|]. apply IH.
  - cbn. rewrite bool_decide_false by congruence. apply IH.
Qed.

End findTable.

Lemma truthy_str_true s : s ≠ EmptyString → truthy_str s = true.
Proof. by destruct s. Qed.


Lemma parentPK_is_Some parent :
  Table.fields parent ≠ [] → is_Some (parentPK parent).
Proof.
  unfold parentPK. intros Hfields.
  destruct (List.find _ _); [done|].
  destruct (Table.fields parent); [done|]. cbn. eauto.
Qed.

(** Run [saveRelationship] through its endpoint checks. *)
Ltac enter_saveRelationship H :=
  destruct H as (?Hdraft & ?Hp & ?Hc & ?Hpc & ?Hparent & ?Hchild);
  unfold saveRelationship;
  rewrite Hdraft, (truthy_str_true _ Hp), (truthy_str_true _ Hc),
          (bool_decide_false _ Hpc), Hparent, Hchild;
  cbn [negb orb].

(** C3. On a platform whose [toLowerCase] leaves the suffix of
    [uniqueName] alone: when the store resolves the two ids of a
    [MANY_TO_MANY] draft to tables [A] and [B], [saveRelationship]
    appends one table to the store and one record to the relationships.
    The table's name is [uniqueName] of ["{A.name}_{B.name}_join"] over
    the tables: the first of that name, [.._join_1], [.._join_2], ...
    that is the name of no table of the store under case-insensitive
    comparison. The table has three fields: a primary key, and two
    [INTEGER] foreign keys, not primary, that reference [A.id] and
    [B.id] and are named after [A] and [B]. The tables that were in the
    store, [A] and [B] among them, are as they were. *)
Theorem saveRelationship_many_to_many (e : Entropy.t) (st : State)
    (d : RelDraft.t) (A B : Table.t) :
  LowerKeepsSuffix →
  resolves st d A B →
  RelDraft.type d = MANY_TO_MANY →
  let base := Table.name A +:+ "_" +:+ Table.name B +:+ "_join" in
  ∃ st' joinName key fa fb rel,
    saveRelationship e st = Done st'
    ∧ uniqueName base (tables st) = Some joinName
    ∧ ¬ collides joinName (tables st)
    ∧ (∃ m, joinName = attempt base m
            ∧ ∀ j, j < m → collides (attempt base j) (tables st))
    ∧ tables st' = tables st ++ [Table.mk (Entropy.newId e 0) joinName
                                          [key; fa; fb]]
    ∧ Field.isPrimary key = Some true
    ∧ (Field.type fa = INTEGER ∧ Field.isForeignKey fa = Some true
       ∧ Field.references fa = Some (Table.id A) ∧ Field.isPrimary fa = None
       ∧ Field.name fa = toLowerCase (Table.name A) +:+ "_id")
    ∧ (Field.type fb = INTEGER ∧ Field.isForeignKey fb = Some true
       ∧ Field.references fb = Some (Table.id B) ∧ Field.isPrimary fb = None
       ∧ Field.name fb = toLowerCase (Table.name B) +:+ "_id")
    ∧ relationships st' = relationships st ++ [rel]
    ∧ (Relationship.parentTableId rel = Table.id A
       ∧ Relationship.childTableId rel = Table.id B
       ∧ Relationship.type rel = MANY_TO_MANY)
    ∧ findTable (Table.id A) (tables st') = Some A
    ∧ findTable (Table.id B) (tables st') = Some B.
Proof.
  intros lower Hres Htype base.
  destruct (uniqueName_returns lower base (tables st))
    as (m & Hname & Hfree & Hbusy).
  set (joinName := attempt base m) in *.
  pose proof Hres as (_ & _ & _ & _ & HA & HB).
  destruct (findTable_Some _ _ _ HA) as [_ HidA].
  destruct (findTable_Some _ _ _ HB) as [_ HidB].
  enter_saveRelationship Hres.
  fold base. rewrite Htype, bool_decide_true, Hname by done.
  eexists _, joinName, _, _, _, _.
  split; [reflexivity|]. cbn.
  split_and!; try done.
  - by exists m.
  - rewrite HidA. by apply findTable_app_l.
  - rewrite HidB. by apply findTable_app_l.
Qed.

Lemma existsb_sameName fields name :
  existsb (λ f, sameName (Field.name f) name) fields = true
  ↔ ∃ f, f ∈ fields ∧ toLowerCase (Field.name f) = toLowerCase name.
Proof.
  rewrite existsb_exists. unfold sameName.
  split; intros (f & Hin & Heq); exists f.
  - split; [by apply list_elem_of_In|by apply bool_decide_eq_true in Heq].
  - split; [by apply list_elem_of_In|by apply bool_decide_eq_true].
Qed.

(** The name [saveRelationship] gives the foreign key is the resolved
    name. *)
Lemma fkName_resolvedName d parent : fkName d parent = resolvedName d parent.
Proof.
  unfold fkName, resolvedName, or_str.
  by destruct (trim (RelDraft.childField d)).
Qed.

(** X30. When the parent of a [ONE_TO_ONE] draft has a field and the
    child already has a field whose name is the resolved foreign-key
    name under case-insensitive comparison, [saveRelationship] leaves
    the child with as many fields as it had: at every position, a field
    of that name is the field that was there with [isUnique] set to
    true, and any other field is the field that was there. *)
Theorem saveRelationship_promotes_existing (e : Entropy.t) (st : State)
    (d : RelDraft.t) (parent child : Table.t) :
  resolves st d parent child →
  RelDraft.type d = ONE_TO_ONE →
  Table.fields parent ≠ [] →
  (∃ f, f ∈ Table.fields child
        ∧ toLowerCase (Field.name f) = toLowerCase (resolvedName d parent)) →
  ∃ st' child',
    saveRelationship e st = Done st'
    ∧ findTable (Table.id child) (tables st') = Some child'
    ∧ length (Table.fields child') = length (Table.fields child)
    ∧ ∀ i f, Table.fields child !! i = Some f →
        ∃ f', Table.fields child' !! i = Some f'
          ∧ (toLowerCase (Field.name f) = toLowerCase (resolvedName d parent) →
             f' = Field.with_isUnique true f
             ∧ Field.isUnique f' = Some true)
          ∧ (toLowerCase (Field.name f) ≠ toLowerCase (resolvedName d parent) →
             f' = f).
Proof.
  rewrite <-fkName_resolvedName.
  intros Hres Htype Hfields Hhas.
  pose proof Hres as (_ & _ & _ & _ & _ & HB).
  destruct (findTable_Some _ _ _ HB) as [_ HidB].
  destruct (parentPK_is_Some parent Hfields) as [pk Hpk].
  apply existsb_sameName in Hhas.
  enter_saveRelationship Hres.
  rewrite Htype, bool_decide_false, Hpk by done.
  unfold updatedChild. rewrite Hhas, bool_decide_true by done. cbn [negb].
  eexists _, _. split; [reflexivity|]. cbn [tables setMessage setShowRelModal
    setRelationships setTables].
  split; [|split].
  - rewrite <-HidB in HB. by apply findTable_replace.
  - cbn. by rewrite length_fmap.
  - intros i f Hi. cbn. rewrite list_lookup_fmap, Hi. cbn.
    eexists. split; [reflexivity|]. unfold sameName.
    split; intros Hname.
    + by rewrite bool_decide_true.
    + by rewrite bool_decide_false.
Qed.


(** ** Deletion *)

(** C6. [deleteTable(id)], for an [id] of the store, keeps the tables
    whose id is not [id] and the relationships neither end of which is
    [id], in their order, and nothing else: no table of that id and no
    relationship with that end is left, and every other id resolves to
    the table it resolved to, with the fields it had, a foreign key that
    references [id] included. *)
Theorem deleteTable_spec (tableId : string) (st : State) :
  (∃ t, t ∈ tables st ∧ Table.id t = tableId) →
  let st' := deleteTable tableId st in
  (∀ t, t ∈ tables st' ↔ t ∈ tables st ∧ Table.id t ≠ tableId)
  ∧ tables st' `sublist_of` tables st
  ∧ (∀ r, r ∈ relationships st' ↔
          r ∈ relationships st
          ∧ Relationship.parentTableId r ≠ tableId
          ∧ Relationship.childTableId r ≠ tableId)
  ∧ relationships st' `sublist_of` relationships st
  ∧ (∀ id, id ≠ tableId → findTable id (tables st') = findTable id (tables st))
  ∧ dialect st' = dialect st.
Proof.
  intros (t & Hin & Hid) st'. subst st'. unfold deleteTable.
  destruct (findTable tableId (tables st)) as [found|] eqn:Hfind.
  2: { rewrite findTable_None in Hfind. by destruct (Hfind t Hin). }
  cbn. split_and!.
  - intros x. rewrite list_elem_of_filter. tauto.
  - apply sublist_filter.
  - intros r. rewrite list_elem_of_filter. tauto.
  - apply sublist_filter.
  - intros id Hne. by apply findTable_filter_ne.
  - done.
Qed.

Lemma existsb_referencesEndpoint rel t :
  existsb (referencesEndpoint rel) (Table.fields t) = true
  ↔ hasEndpointKey rel t.
Proof.
  rewrite existsb_exists. unfold referencesEndpoint, hasEndpointKey.
  split.
  - intros (f & Hin & Hf). apply andb_prop in Hf as [Hfk Href].
    apply bool_decide_eq_true in Href.
    exists f. split_and!; [by apply list_elem_of_In|by apply truthy_true|].
    apply elem_of_cons in Href as [->| Href]; [by left|].
    apply elem_of_cons in Href as [->| Href]; [by right|].
    by apply not_elem_of_nil in Href.
  - intros (f & Hin & Hfk & Href). exists f.
    split; [by apply list_elem_of_In|].
    apply andb_true_intro. split; [by apply truthy_true|].
    apply bool_decide_eq_true.
    destruct Href as [-> | ->]; in_list.
Qed.

(** [Array.prototype.find] returns the first element that passes. *)
Lemma find_first {X} (p : X → bool) (l : list X) (x : X) :
  List.find p l = Some x →
  ∃ pre post, l = pre ++ x :: post ∧ p x = true
              ∧ ∀ y, y ∈ pre → p y = false.
Proof.
  induction l as [|a l IH]; [done|]. cbn.
  destruct (p a) eqn:Ha.
  - intros [= ->]. exists [], l. split_and!; [done..|].
    intros y Hy. by apply not_elem_of_nil in Hy.
  - intros Hfind. destruct (IH Hfind) as (pre & post & -> & Hx & Hpre).
    exists (a :: pre), post. split_and!; [done..|].
    intros y Hy. apply elem_of_cons in Hy as [->|Hy]; [done|].
    by apply Hpre.
Qed.

(** C8. [deleteRelationship(id)], when the store resolves [id] to a
    [MANY_TO_MANY] record [rel], keeps the relationships whose id is not
    [id], so [rel] goes and no record of another id does. If some table
    has a foreign key that references either end of [rel], the first
    such table [j] of the store is located and the tables of [j]'s id
    are removed, all others kept; if no table has one, the tables are
    as they were. *)
Theorem deleteRelationship_many_to_many (relId : string) (st : State)
    (rel : Relationship.t) :
  findRelationship relId (relationships st) = Some rel →
  Relationship.type rel = MANY_TO_MANY →
  let st' := deleteRelationship relId st in
  (rel ∉ relationships st')
  ∧ (∀ r, r ∈ relationships st → Relationship.id r ≠ relId →
          r ∈ relationships st')
  ∧ relationships st' `sublist_of` relationships st
  ∧ ((∃ pre j post,
        tables st = pre ++ j :: post
        ∧ hasEndpointKey rel j
        ∧ (∀ t, t ∈ pre → ¬ hasEndpointKey rel t)
        ∧ (∀ t, t ∈ tables st' ↔ t ∈ tables st ∧ Table.id t ≠ Table.id j)
        ∧ tables st' `sublist_of` tables st)
     ∨ ((∀ t, t ∈ tables st → ¬ hasEndpointKey rel t)
        ∧ tables st' = tables st)).
Proof.
  intros Hfind Htype st'. subst st'. unfold deleteRelationship.
  rewrite Hfind, Htype, bool_decide_true by done.
  apply find_some in Hfind as [_ Hid]. apply bool_decide_eq_true in Hid.
  split_and!.
  - cbn. rewrite list_elem_of_filter. tauto.
  - intros r Hin Hne. cbn. by apply list_elem_of_filter.
  - cbn. apply sublist_filter.
  - destruct (List.find _ (tables st)) as [j|] eqn:Hjoin.
    + left. apply find_first in Hjoin as (pre & post & Hsplit & Hj & Hpre).
      exists pre, j, post. cbn. split_and!.
      * done.
      * by apply existsb_referencesEndpoint.
      * intros t Ht Hkey. apply existsb_referencesEndpoint in Hkey.
        by rewrite (Hpre t Ht) in Hkey.
      * intros t. rewrite list_elem_of_filter. tauto.
      * apply sublist_filter.
    + right. split; [|done]. intros t Ht Hkey.
      apply existsb_referencesEndpoint in Hkey.
      apply list_elem_of_In in Ht.
      by rewrite (find_none _ _ Hjoin t Ht) in Hkey.
Qed.

(** ** DDL generator *)

Section ddl.
Implicit Types (d : Dialect) (ts : list Table.t) (f : Field.t).

(** The [parts] pushed and joined by a space are the documented line. *)
Lemma columnDef_columnLine d f : columnDef d f = columnLine d f.
Proof.
  unfold columnDef, columnLine, join.
  destruct (truthy (Field.isPrimary f)), (truthy (Field.isNull f)),
    (truthy (Field.isUnique f)), (Field.default f) as [v|];
    try destruct (truthy_str v);
    cbn [negb andb app String.concat];
    rewrite ?string_app_assoc, ?string_app_nil_r; reflexivity.
Qed.

Lemma foldl_push {X Y} (g : X → list Y) (acc : list Y) (l : list X) :
  foldl (λ acc x, acc ++ g x) acc l = acc ++ (l ≫= g).
Proof.
  revert acc. induction l as [|x l IH]; intros acc; cbn.
  - by rewrite app_nil_r.
  - by rewrite IH, app_assoc.
Qed.

Lemma columnDefs_fmap d (l : list Field.t) :
  foldl (λ defs f, defs ++ [columnDef d f]) [] l = columnLine d <$> l.
Proof.
  rewrite (foldl_push (λ f, [columnDef d f])). cbn.
  induction l as [|f l IH]; [done|]. cbn. by rewrite IH, columnDef_columnLine.
Qed.

Lemma pushForeignKey_app d ts (defs : list string) (l : list Field.t) :
  foldl (pushForeignKey d ts) defs l
  = defs ++ foldl (pushForeignKey d ts) [] l.
Proof.
  revert defs. induction l as [|f l IH]; intros defs; cbn.
  - by rewrite app_nil_r.
  - rewrite IH, (IH (pushForeignKey d ts [] f)). unfold pushForeignKey.
    destruct (Field.references f) as [ref|]; [|done].
    destruct (findTable ref ts); [|done]. by rewrite <-app_assoc.
Qed.

(** The second loop pushes a line for the fields the store can resolve,
    and for no other. *)
Lemma pushForeignKey_linked d ts f :
  (isLinked f = true
   ∧ pushForeignKey d ts [] f
     = option_list (foreignKeyDef d f <$> referencedTable ts f))
  ∨ (isLinked f ≠ true ∧ referencedTable ts f = None).
Proof.
  unfold isLinked, referencedTable, pushForeignKey.
  destruct (truthy (Field.isForeignKey f)); cbn [andb];
    [|right; split; [discriminate|done]].
  destruct (Field.references f) as [ref|]; cbn [truthy_opt_str];
    [|right; split; [discriminate|done]].
  destruct (truthy_str ref); [|right; split; [discriminate|done]].
  left. split; [done|]. by destruct (findTable ref ts).
Qed.

(** The second loop pushes a line for the fields the store can resolve,
    and for no other. *)
Lemma foreignKeyDefs_omap d ts (l : list Field.t) :
  foreignKeyDefs d ts l
  = omap (λ f, foreignKeyDef d f <$> referencedTable ts f) l.
Proof.
  unfold foreignKeyDefs. induction l as [|f l IH]; [done|].
  rewrite filter_cons. cbn [omap list_omap].
  destruct (pushForeignKey_linked d ts f) as [[Hl Hpush]|[Hl Hnone]].
  - rewrite decide_True by done. cbn [foldl].
    rewrite pushForeignKey_app, IH, Hpush.
    by destruct (referencedTable ts f).
  - rewrite decide_False by done. by rewrite Hnone, IH.
Qed.

Lemma tableDefs_split d ts (t : Table.t) :
  tableDefs d ts t
  = (columnLine d <$> Table.fields t)
      ++ foreignKeyDefs d ts (Table.fields t).
Proof.
  unfold tableDefs. by rewrite columnDefs_fmap, pushForeignKey_app.
Qed.

End ddl.

Lemma tableLines_statement d ts (t : Table.t) :
  tableLines d ts t = statement d t (foreignKeyDefs d ts (Table.fields t)).
Proof. unfold tableLines, statement. by rewrite tableDefs_split. Qed.

(** Each line the second loop pushes starts with a comma of its own. *)
Lemma foreignKeyDefs_lines d ts (l : list Field.t) :
  foreignKeyDefs d ts l = foreignKeyLines "  ," d ts l.
Proof. apply foreignKeyDefs_omap. Qed.

(** The text of [generateSQL] is the documented layout, with each
    foreign-key line behind two spaces and a comma. *)
Lemma generateSQL_document d ts : generateSQL d ts = document "  ," d ts.
Proof.
  unfold generateSQL, document. rewrite (foldl_push (tableLines d ts)).
  f_equal. unfold header. f_equal.
  apply list_bind_ext; [|done]. intros t.
  by rewrite tableLines_statement, foreignKeyDefs_lines.
Qed.

(** C7. The text of [generateSQL] is, joined by line feeds: the header,
    then for each table of the store in order the line
    [CREATE TABLE <quoted name> (], the lines of the table joined by a
    comma and a line feed, and the line that closes the statement with
    [);]. The lines of a table are one per field, in the order of its
    fields: the quoted name and the type, followed by [PRIMARY KEY] if
    [isPrimary], [NOT NULL] if neither [isNull] nor [isPrimary],
    [UNIQUE] if [isUnique] and [DEFAULT '<value>'] if the default is not
    empty, in this order; then one line per foreign-key field whose
    [references] is the id of a table of the store, in the order of the
    fields. Each of these last lines starts with a comma of its own,
    before the [FOREIGN KEY (..) REFERENCES ..(..)] clause of its field:
    joined to the line before it, it stands behind two commas, as in
    the text for [users] and the [orders] that reference it; that text
    is not the one of lines that start as a column line does. *)
Theorem generateSQL_foreign_key_comma :
  (∀ d ts, generateSQL d ts = document "  ," d ts)
  ∧ generateSQL mysql [Sample.users; Fixture.linked]
    = join newline
        [ "-- Generated by SQLMaker";
          "-- Dialect: mysql";
          EmptyString;
          "CREATE TABLE `users` (";
          "  `id` INTEGER PRIMARY KEY";
          ");" +:+ newline;
          "CREATE TABLE `orders` (";
          "  `id` INTEGER PRIMARY KEY," +:+ newline
            +:+ "  `users_id` INTEGER NOT NULL," +:+ newline
            +:+ "  ,FOREIGN KEY (`users_id`) REFERENCES `users`(`id`)";
          ");" +:+ newline ]
  ∧ generateSQL mysql [Sample.users; Fixture.linked]
    ≠ document "  " mysql [Sample.users; Fixture.linked].
Proof.
  split; [apply generateSQL_document|]. split; [reflexivity|].
  vm_compute. discriminate.
Qed.



(** ** Project documents *)

Section documents.

Lemma option_eta {X} (o : option X) :
  match o with Some x => Some x | None => None end = o.
Proof. by destruct o. Qed.

Lemma as_flag_fmap (b : option bool) : as_flag (JBool <$> b) = Some b.
Proof. by destruct b. Qed.

Lemma as_text_fmap (s : option string) : as_text (JStr <$> s) = Some s.
Proof. by destruct s. Qed.

Lemma typeOfName_typeName t : typeOfName (typeName t) = Some t.
Proof. by destruct t. Qed.

Lemma relTypeOfName_relTypeName t : relTypeOfName (relTypeName t) = Some t.
Proof. by destruct t. Qed.

Lemma dialectOfName_dialectName d : dialectOfName (dialectName d) = Some d.
Proof. by destruct d. Qed.

(** A property of an object literal that was not [undefined] is read
    back; one that was is [undefined] in the document too, when no
    later property of the literal has its key. *)
Lemma prop_object_cons key k v rest :
  prop key (object ((k, v) :: rest))
  = if String.eqb k key
    then match v with Some j => Some j | None => prop key (object rest) end
    else prop key (object rest).
Proof.
  unfold object, prop. cbn [omap list_omap fst snd].
  destruct v as [j|]; cbn [fmap option_fmap option_map lookupProp];
    by destruct (String.eqb k key).
Qed.

Lemma prop_object_nil key : prop key (object []) = None.
Proof. done. Qed.

Lemma field_of_to_json f : field_of_json (field_to_json f) = Some f.
Proof.
  unfold field_of_json, field_to_json, get_string, get_flag, get_text.
  rewrite !prop_object_cons, !prop_object_nil.
  cbn [String.eqb Ascii.eqb Bool.eqb andb as_string].
  rewrite !option_eta, !as_flag_fmap, !as_text_fmap. cbn [mbind option_bind].
  rewrite typeOfName_typeName. by destruct f.
Qed.

Lemma table_of_to_json t : table_of_json (table_to_json t) = Some t.
Proof.
  unfold table_of_json, table_to_json, get_string.
  rewrite !prop_object_cons, !prop_object_nil.
  cbn [String.eqb Ascii.eqb Bool.eqb andb as_string mbind option_bind].
  rewrite (mapM_fmap_Some _ _ _ field_of_to_json). by destruct t.
Qed.

Lemma relationship_of_to_json r :
  relationship_of_json (relationship_to_json r) = Some r.
Proof.
  unfold relationship_of_json, relationship_to_json, get_string.
  rewrite !prop_object_cons, !prop_object_nil.
  cbn [String.eqb Ascii.eqb Bool.eqb andb as_string mbind option_bind].
  rewrite relTypeOfName_relTypeName. by destruct r.
Qed.

End documents.

(** C9. Importing the document that [exportJSON] prints for a state
    gives that state's tables, relationships and dialect, whatever the
    designer held before the import. *)
Theorem importJSON_exportJSON (nullMessage : string) (st before : State) :
  ∃ st',
    importJSON nullMessage (exportJSON st) before = Some st'
    ∧ tables st' = tables st
    ∧ relationships st' = relationships st
    ∧ dialect st' = dialect st
    ∧ message st' = "Project imported".
Proof.
  exists (setMessage "Project imported"
            (setDialect (dialect st)
               (setRelationships (relationships st)
                  (setTables (tables st) before)))).
  split; [|split_and!; reflexivity].
  unfold importJSON, exportJSON.
  change (object ?l) with (JObj (omap (λ kv, pair kv.1 <$> kv.2) l)) at 1.
  cbn match. rewrite !prop_object_cons.
  cbn [String.eqb Ascii.eqb Bool.eqb andb].
  rewrite (mapM_fmap_Some _ _ _ table_of_to_json).
  cbn [mbind option_bind or_json truthy_json].
  rewrite (mapM_fmap_Some _ _ _ relationship_of_to_json).
  cbn [mbind option_bind].
  assert (truthy_str (dialectName (dialect st)) = true) as ->
    by (by destruct (dialect st)).
  rewrite dialectOfName_dialectName. reflexivity.
Qed.

(** * Further properties *)

(** ** Saving a table *)

Lemma existsb_false {X} (p : X → bool) (l : list X) :
  existsb p l = false ↔ ∀ x, x ∈ l → p x = false.
Proof.
  split.
  - intros Hno x Hx. apply not_true_is_false. intros Hp.
    assert (existsb p l = true) as Hyes; [|congruence].
    apply existsb_exists. exists x. by rewrite <-list_elem_of_In.
  - intros Hall. apply not_true_is_false. intros Hyes.
    apply existsb_exists in Hyes as (x & Hx & Hp).
    rewrite <-list_elem_of_In in Hx. rewrite (Hall x Hx) in Hp. done.
Qed.

(** The conflict test of [saveTable] is false exactly when the name of
    the draft is free. *)
Lemma nameConflict_false st d :
  existsb (λ t, bool_decide (toLowerCase (trim (Table.name t))
                             = toLowerCase (trim (TableDraft.name d)))
                && bool_decide (Some (Table.id t) ≠ editingTable st))
          (tables st) = false
  ↔ nameFree st d.
Proof.
  rewrite existsb_false. unfold nameFree. split.
  - intros Hall t Ht Hid Hname. specialize (Hall t Ht).
    rewrite (bool_decide_true _ Hname), (bool_decide_true _ Hid) in Hall.
    done.
  - intros Hfree t Ht. apply andb_false_iff.
    destruct (decide (Some (Table.id t) = editingTable st)) as [Heq|Hne].
    + right. apply bool_decide_false. by intros Hne.
    + left. apply bool_decide_false. by apply Hfree.
Qed.

(** Every check of [saveTable] passes on a valid draft whose name is
    free, and on no other. *)
Lemma saveTable_cases e st d :
  tableDraft st = Some d →
  (∃ msg, msg ∈ tableErrors ∧ saveTable e st = Done (setMessage msg st))
  ∨ (validDraft d ∧ nameFree st d ∧ saveTable e st = Done (committed e d st)).
Proof.
  intros Hd. unfold saveTable. rewrite Hd.
  destruct (truthy_str (trim (TableDraft.name d))) eqn:Hname; cbn [negb].
  2: { left. eexists. split; [|done]. in_list. }
  destruct (existsb _ (tables st)) eqn:Hconflict.
  { left. eexists. split; [|done]. in_list. }
  destruct (truthy_nat (length (TableDraft.fields d))) eqn:Hlen; cbn [negb].
  2: { left. eexists. split; [|done]. in_list. }
  destruct (existsb _ (TableDraft.fields d)) eqn:Hprimary; cbn [negb].
  2: { left. eexists. split; [|done]. in_list. }
  case_bool_decide as Hdup.
  { left. eexists. split; [|done]. in_list. }
  right. split; [|split; [by apply nameConflict_false|done]].
  split_and!.
  - intros Heq. by rewrite Heq in Hname.
  - intros Heq. by rewrite Heq in Hlen.
  - apply existsb_exists in Hprimary as (f & Hf & Hp).
    exists f. split; [by rewrite list_elem_of_In|by apply truthy_true].
  - by apply size_list_to_set_NoDup.
Qed.

Lemma saveTable_commits e st d :
  tableDraft st = Some d → validDraft d → nameFree st d →
  saveTable e st = Done (committed e d st).
Proof.
  intros Hd (Hname & Hfields & (f & Hf & Hp) & Hnodup) Hfree.
  unfold saveTable. rewrite Hd, (truthy_str_true _ Hname). cbn [negb].
  apply nameConflict_false in Hfree. rewrite Hfree.
  assert (truthy_nat (length (TableDraft.fields d)) = true) as ->
    by (by destruct (TableDraft.fields d)).
  assert (existsb (λ f, truthy (Field.isPrimary f)) (TableDraft.fields d)
          = true) as ->.
  { apply existsb_exists. exists f.
    split; [by rewrite <-list_elem_of_In|by apply truthy_true]. }
  cbn [negb]. rewrite bool_decide_false; [done|].
  intros Hsize. apply Hsize. by apply size_list_to_set.
Qed.

(** X1. With no table being edited, a valid draft whose name is the name
    of no table, names trimmed and compared without case, is appended to
    the tables under a fresh id, with its name as typed and its fields;
    the tables that were there and the relationships are as they were,
    and the modal is closed. *)
Theorem saveTable_creates (e : Entropy.t) (st : State) (d : TableDraft.t) :
  tableDraft st = Some d →
  editingTable st = None →
  validDraft d →
  (∀ t, t ∈ tables st →
        toLowerCase (trim (Table.name t))
        ≠ toLowerCase (trim (TableDraft.name d))) →
  ∃ st',
    saveTable e st = Done st'
    ∧ tables st' = tables st ++ [Table.mk (Entropy.newId e 0)
                                          (TableDraft.name d)
                                          (TableDraft.fields d)]
    ∧ relationships st' = relationships st
    ∧ showTableModal st' = false
    ∧ message st' = "Table created".
Proof.
  intros Hd Hedit Hvalid Hfree.
  exists (committed e d st). split.
  - apply saveTable_commits; [done..|]. intros t Ht _. by apply Hfree.
  - unfold committed. rewrite Hedit. done.
Qed.

(** X2. With the table of a non-empty id [id] being edited, a valid
    draft whose name is the name of no table of another id replaces the
    tables of id [id] by the draft under that id: the store has as many
    tables as before, [id] resolves to the draft's name and fields if it
    resolved at all, and every other id resolves to what it did. The
    table being edited may keep its own name. *)
Theorem saveTable_updates (e : Entropy.t) (st : State) (d : TableDraft.t)
    (id : string) :
  tableDraft st = Some d →
  editingTable st = Some id →
  id ≠ EmptyString →
  validDraft d →
  (∀ t, t ∈ tables st → Table.id t ≠ id →
        toLowerCase (trim (Table.name t))
        ≠ toLowerCase (trim (TableDraft.name d))) →
  ∃ st',
    saveTable e st = Done st'
    ∧ length (tables st') = length (tables st)
    ∧ (is_Some (findTable id (tables st)) →
       findTable id (tables st')
       = Some (Table.mk id (TableDraft.name d) (TableDraft.fields d)))
    ∧ (∀ id', id' ≠ id → findTable id' (tables st') = findTable id' (tables st))
    ∧ relationships st' = relationships st
    ∧ message st' = "Table updated".
Proof.
  intros Hd Hedit Hid Hvalid Hfree.
  exists (committed e d st). split.
  { apply saveTable_commits; [done..|]. intros t Ht Hne. apply Hfree; [done|].
    rewrite Hedit in Hne. congruence. }
  unfold committed. rewrite Hedit, (truthy_str_true _ Hid). cbn.
  set (new := Table.mk id (TableDraft.name d) (TableDraft.fields d)).
  split_and!; [by rewrite length_fmap| | |done|done].
  - intros [t Ht]. destruct (findTable_Some _ _ _ Ht) as [_ Hidt].
    pose proof (findTable_replace (tables st) t new) as Hrep.
    rewrite Hidt in Hrep. apply Hrep; [done|]. done.
  - intros id' Hne.
    pose proof (findTable_replace_ne id' (tables st) new new) as Hrep.
    cbn in Hrep. by apply Hrep.
Qed.

(** X3. A draft whose name, trimmed and compared without case, is the
    name of a table other than the one being edited is turned down: the
    handler sets the message, to the one for a missing name if the
    trimmed name is empty and to the one for a taken name otherwise, and
    nothing else. *)
Theorem saveTable_rejects_taken_name (e : Entropy.t) (st : State)
    (d : TableDraft.t) (t : Table.t) :
  tableDraft st = Some d →
  t ∈ tables st →
  Some (Table.id t) ≠ editingTable st →
  toLowerCase (trim (Table.name t)) = toLowerCase (trim (TableDraft.name d)) →
  ∃ msg,
    saveTable e st = Done (setMessage msg st)
    ∧ msg = (if truthy_str (trim (TableDraft.name d))
             then "Table name already exists" else "Table name required").
Proof.
  intros Hd Ht Hid Hname. unfold saveTable. rewrite Hd.
  destruct (truthy_str (trim (TableDraft.name d))); cbn [negb].
  2: { by eexists. }
  assert (existsb (λ t, bool_decide (toLowerCase (trim (Table.name t))
                                     = toLowerCase (trim (TableDraft.name d)))
                        && bool_decide (Some (Table.id t) ≠ editingTable st))
                  (tables st) = true) as ->.
  { apply existsb_exists. exists t. split; [by rewrite <-list_elem_of_In|].
    by rewrite (bool_decide_true _ Hname), (bool_decide_true _ Hid). }
  by eexists.
Qed.

Lemma tableOk_of_draft id d :
  validDraft d → tableOk (Table.mk id (TableDraft.name d) (TableDraft.fields d)).
Proof. done. Qed.

(** The tables [saveTable] leaves are the old ones, the draft added or
    put in place of some of them. *)
Lemma committed_tables e d st t :
  t ∈ tables (committed e d st) →
  t ∈ tables st
  ∨ ∃ id, t = Table.mk id (TableDraft.name d) (TableDraft.fields d)
          ∧ (editingTable st = Some id ∧ id ≠ EmptyString
             ∨ id = Entropy.newId e 0
               ∧ (editingTable st = None ∨ editingTable st = Some EmptyString)).
Proof.
  unfold committed. intros Ht.
  assert (t ∈ tables st ++ [Table.mk (Entropy.newId e 0) (TableDraft.name d)
                                     (TableDraft.fields d)] →
          (editingTable st = None ∨ editingTable st = Some EmptyString) →
          t ∈ tables st
          ∨ ∃ id, t = Table.mk id (TableDraft.name d) (TableDraft.fields d)
                  ∧ (editingTable st = Some id ∧ id ≠ EmptyString
                     ∨ id = Entropy.newId e 0
                       ∧ (editingTable st = None
                          ∨ editingTable st = Some EmptyString))) as Hcreate.
  { intros Hin Hed. apply elem_of_app in Hin as [Hin|Hin]; [by left|].
    apply list_elem_of_singleton in Hin as ->. right. eexists. split; [done|].
    by right. }
  destruct (editingTable st) as [editing|] eqn:Hed.
  2: { apply Hcreate; [exact Ht|by left]. }
  destruct editing as [|c editing].
  { apply Hcreate; [exact Ht|by right]. }
  cbn in Ht. apply list_elem_of_fmap in Ht as (u & -> & Hu).
  case_bool_decide; [|by left].
  right. eexists. split; [done|]. left. done.
Qed.

(** X4. [saveTable] keeps the tables of the store well formed: if every
    table has a name that is not blank, a field, a primary key and no
    two fields of the same name without case, so has every table after
    the handler, whether it commits the draft or turns it down. *)
Theorem saveTable_keeps_tables_ok (e : Entropy.t) (st st' : State) :
  Forall tableOk (tables st) →
  saveTable e st = Done st' →
  Forall tableOk (tables st').
Proof.
  intros Hok Hrun.
  destruct (tableDraft st) as [d|] eqn:Hd.
  2: { unfold saveTable in Hrun. by rewrite Hd in Hrun. }
  destruct (saveTable_cases e st d Hd)
    as [(msg & _ & Hmsg)|(Hvalid & _ & Hcommit)].
  { rewrite Hmsg in Hrun. by injection Hrun as <-. }
  rewrite Hcommit in Hrun. injection Hrun as <-.
  apply Forall_forall. intros t Ht.
  apply committed_tables in Ht as [Ht|(id & -> & _)].
  - rewrite Forall_forall in Hok. by apply Hok.
  - by apply tableOk_of_draft.
Qed.

(** X5. [saveTable] keeps the names of the store apart: if tables of
    different ids have different names, names trimmed and compared
    without case, they have after the handler, provided the id it takes
    for the table being edited is not the empty string. *)
Theorem saveTable_keeps_names_distinct (e : Entropy.t) (st st' : State) :
  namesDistinct (tables st) →
  editingTable st ≠ Some EmptyString →
  saveTable e st = Done st' →
  namesDistinct (tables st').
Proof.
  intros Hdistinct Hed Hrun.
  destruct (tableDraft st) as [d|] eqn:Hd.
  2: { unfold saveTable in Hrun. by rewrite Hd in Hrun. }
  destruct (saveTable_cases e st d Hd)
    as [(msg & _ & Hmsg)|(_ & Hfree & Hcommit)].
  { rewrite Hmsg in Hrun. by injection Hrun as <-. }
  rewrite Hcommit in Hrun. injection Hrun as <-.
  assert (∀ t id, t ∈ tables st →
            (editingTable st = Some id ∧ id ≠ EmptyString
             ∨ id = Entropy.newId e 0
               ∧ (editingTable st = None
                  ∨ editingTable st = Some EmptyString)) →
            Table.id t ≠ id →
            toLowerCase (trim (Table.name t))
            ≠ toLowerCase (trim (TableDraft.name d))) as Hnew.
  { intros t id Ht Hcase Hne. apply Hfree; [done|].
    destruct Hcase as [[H1 _]|[_ [H1|H1]]]; congruence. }
  intros t u Ht Hu Hne.
  apply committed_tables in Ht as [Ht|(idt & -> & Hcaset)];
    apply committed_tables in Hu as [Hu|(idu & -> & Hcaseu)]; cbn in *.
  - by apply Hdistinct.
  - by apply (Hnew t idu).
  - intros Heq. by apply (Hnew u idt Hu Hcaset); [congruence|].
  - destruct Hne.
    destruct Hcaset as [[Ht _]|[-> Ht]], Hcaseu as [[Hu _]|[-> Hu]];
      try congruence.
    + destruct Hu as [Hu|Hu]; congruence.
    + destruct Ht as [Ht|Ht]; congruence.
Qed.

(** ** Saving a relationship *)

(** The messages [saveRelationship] rejects a draft with. *)
Ltac reject_relationship :=
  eexists; split; [reflexivity|in_list].

(** What [saveRelationship] has done when it returns: rejected the
    draft, appended a join table, or replaced the child. *)
Lemma saveRelationship_cases e st st' :
  saveRelationship e st = Done st' →
  ∃ d, relDraft st = Some d
    ∧ ((∃ msg, st' = setMessage msg st
               ∧ msg ∈ ["Invalid parent/child tables";
                        "Parent or child table missing"])
       ∨ ∃ parent child,
           resolves st d parent child
           ∧ ((RelDraft.type d = MANY_TO_MANY
               ∧ ∃ joinName,
                   tables st' = tables st ++ [joinTable e joinName parent child]
                   ∧ relationships st'
                     = relationships st
                         ++ [relOfDraft d (Entropy.newId e 1)
                               (RelDraft.parentField d) (RelDraft.childField d)])
              ∨ (RelDraft.type d ≠ MANY_TO_MANY
                 ∧ ∃ pk,
                     parentPK parent = Some pk
                     ∧ tables st'
                       = (λ t, if bool_decide (Table.id t = Table.id child)
                               then updatedChild e (fkName d parent) pk parent
                                                 child (RelDraft.type d)
                               else t) <$> tables st
                     ∧ relationships st'
                       = relationships st
                           ++ [relOfDraft d (Entropy.newId e 0) (Field.name pk)
                                 (fkName d parent)]))).
Proof.
  unfold saveRelationship. intros Hrun.
  destruct (relDraft st) as [d|] eqn:Hd; [|done].
  exists d. split; [done|].
  destruct (truthy_str (RelDraft.parentTableId d)) eqn:Hp; cbn [negb orb] in Hrun.
  2: { left. injection Hrun as <-. reject_relationship. }
  destruct (truthy_str (RelDraft.childTableId d)) eqn:Hc; cbn [negb orb] in Hrun.
  2: { left. injection Hrun as <-. reject_relationship. }
  case_bool_decide as Hpc.
  { left. injection Hrun as <-. reject_relationship. }
  destruct (findTable (RelDraft.parentTableId d) (tables st))
    as [parent|] eqn:Hparent.
  2: { left. injection Hrun as <-. reject_relationship. }
  destruct (findTable (RelDraft.childTableId d) (tables st))
    as [child|] eqn:Hchild.
  2: { left. injection Hrun as <-. reject_relationship. }
  right. exists parent, child. split.
  { split_and!; try done.
    - intros Heq. by rewrite Heq in Hp.
    - intros Heq. by rewrite Heq in Hc. }
  case_bool_decide as Htype.
  - left. split; [done|].
    destruct (uniqueName _ (tables st)) as [joinName|]; [|done].
    injection Hrun as <-. by exists joinName.
  - right. split; [done|].
    destruct (parentPK parent) as [pk|]; [|done].
    injection Hrun as <-. by exists pk.
Qed.

(** X6. A relationship draft with an end that is not set, with both ends
    the same table, or with an end that is the id of no table, is turned
    down: the handler sets one of its two messages and nothing else, so
    no table gains a column and no record is added. *)
Theorem saveRelationship_rejects_endpoints (e : Entropy.t) (st : State)
    (d : RelDraft.t) :
  relDraft st = Some d →
  RelDraft.parentTableId d = EmptyString
  ∨ RelDraft.childTableId d = EmptyString
  ∨ RelDraft.parentTableId d = RelDraft.childTableId d
  ∨ findTable (RelDraft.parentTableId d) (tables st) = None
  ∨ findTable (RelDraft.childTableId d) (tables st) = None →
  ∃ msg,
    saveRelationship e st = Done (setMessage msg st)
    ∧ msg ∈ ["Invalid parent/child tables"; "Parent or child table missing"].
Proof.
  intros Hd Hbad. unfold saveRelationship. rewrite Hd.
  destruct (truthy_str (RelDraft.parentTableId d)) eqn:Hp; cbn [negb orb];
    [|reject_relationship].
  destruct (truthy_str (RelDraft.childTableId d)) eqn:Hc; cbn [negb orb];
    [|reject_relationship].
  case_bool_decide as Hpc; [reject_relationship|].
  destruct (findTable (RelDraft.parentTableId d) (tables st)) eqn:Hparent;
    [|reject_relationship].
  destruct (findTable (RelDraft.childTableId d) (tables st)) eqn:Hchild;
    [|reject_relationship].
  exfalso. destruct Hbad as [H|[H|[H|[H|H]]]]; try done.
  - by rewrite H in Hp.
  - by rewrite H in Hc.
Qed.

(** X7. A [ONE_TO_ONE] or [ONE_TO_MANY] draft whose parent has no field
    makes [saveRelationship] throw, the key of the parent being
    [undefined]; no setter has run. *)
Theorem saveRelationship_fieldless_parent (e : Entropy.t) (st : State)
    (d : RelDraft.t) (parent child : Table.t) :
  resolves st d parent child →
  RelDraft.type d ≠ MANY_TO_MANY →
  Table.fields parent = [] →
  saveRelationship e st = Threw "TypeError".
Proof.
  intros Hres Htype Hfields. enter_saveRelationship Hres.
  rewrite (bool_decide_false _ Htype).
  unfold parentPK. by rewrite Hfields.
Qed.

(** X8. When the parent of a [ONE_TO_MANY] draft has a field and the
    child already has a field of the resolved foreign-key name (the
    draft's [childField] trimmed if that is not empty, else
    ["{parent.name}_id"] in lower case; names compared without case),
    [saveRelationship] leaves every table
    as it was, in place and in content as far as ids resolve, and
    appends the record all the same: linking twice adds a second record
    and no second column. *)
Theorem saveRelationship_relinks (e : Entropy.t) (st : State)
    (d : RelDraft.t) (parent child : Table.t) :
  resolves st d parent child →
  RelDraft.type d = ONE_TO_MANY →
  Table.fields parent ≠ [] →
  (∃ f, f ∈ Table.fields child
        ∧ toLowerCase (Field.name f) = toLowerCase (resolvedName d parent)) →
  ∃ st' rel,
    saveRelationship e st = Done st'
    ∧ length (tables st') = length (tables st)
    ∧ (∀ id, findTable id (tables st') = findTable id (tables st))
    ∧ relationships st' = relationships st ++ [rel]
    ∧ Relationship.childField rel = resolvedName d parent.
Proof.
  rewrite <-fkName_resolvedName.
  intros Hres Htype Hfields Hhas.
  pose proof Hres as (_ & _ & _ & _ & _ & HB).
  destruct (findTable_Some _ _ _ HB) as [_ HidB].
  destruct (parentPK_is_Some parent Hfields) as [pk Hpk].
  apply existsb_sameName in Hhas.
  enter_saveRelationship Hres.
  rewrite Htype, bool_decide_false, Hpk by done.
  unfold updatedChild. rewrite Hhas, bool_decide_false by done. cbn [negb].
  eexists _, _. split; [reflexivity|]. cbn.
  split_and!; [by rewrite length_fmap| |done|done].
  intros id. destruct (decide (id = Table.id child)) as [->|Hne].
  - rewrite <-HidB in HB. rewrite HB. by apply findTable_replace.
  - by apply findTable_replace_ne.
Qed.


(** ** Invariants under [saveRelationship] *)

Lemma updatedChild_id e name pk parent child type :
  Table.id (updatedChild e name pk parent child type) = Table.id child.
Proof.
  unfold updatedChild. destruct (existsb _ _); cbn [negb]; [|done].
  by case_bool_decide.
Qed.



(** ** Ends of the relationships *)

Lemma findTable_fmap_is_Some (g : Table.t → Table.t) id ts :
  (∀ t, Table.id (g t) = Table.id t) →
  is_Some (findTable id ts) → is_Some (findTable id (g <$> ts)).
Proof.
  intros Hg. unfold findTable. induction ts as [|t ts IH]; [done|].
  cbn [fmap list_fmap List.find]. rewrite Hg.
  case_bool_decide; [by eauto|apply IH].
Qed.

Lemma findTable_app_is_Some id ts ts' :
  is_Some (findTable id ts) → is_Some (findTable id (ts ++ ts')).
Proof. intros [t Ht]. exists t. by apply findTable_app_l. Qed.

(** X11. [saveRelationship] keeps the ends of the relationships in the
    store: if both ends of every record are ids of tables, they are
    after the handler, the ends of the record it appends included. *)
Theorem saveRelationship_keeps_endpoints (e : Entropy.t) (st st' : State) :
  endpointsExist (tables st) (relationships st) →
  saveRelationship e st = Done st' →
  endpointsExist (tables st') (relationships st').
Proof.
  intros Hends Hrun.
  apply saveRelationship_cases in Hrun
    as (d & Hd & [(msg & -> & _)|(parent & child & Hres & Hcase)]); [done|].
  destruct Hres as (_ & _ & _ & _ & Hparent & Hchild).
  assert (∀ ts rel,
            (∀ id, is_Some (findTable id (tables st)) →
                   is_Some (findTable id ts)) →
            Relationship.parentTableId rel = RelDraft.parentTableId d →
            Relationship.childTableId rel = RelDraft.childTableId d →
            endpointsExist ts (relationships st ++ [rel])) as Hgrow.
  { intros ts rel Hts Hp Hc r Hr.
    apply elem_of_app in Hr as [Hr|Hr].
    - destruct (Hends r Hr). split; by apply Hts.
    - apply list_elem_of_singleton in Hr as ->. rewrite Hp, Hc.
      split; apply Hts; by eexists. }
  destruct Hcase as [(_ & joinName & -> & ->)|(_ & pk & _ & -> & ->)].
  - apply Hgrow; [|done..]. intros id. apply findTable_app_is_Some.
  - apply Hgrow; [|done..]. intros id. apply findTable_fmap_is_Some.
    intros t. case_bool_decide; [|done]. by rewrite updatedChild_id.
Qed.

(** ** Deleting *)

Lemma filter_all {X} (P : X → Prop) `{∀ x, Decision (P x)} (l : list X) :
  (∀ x, x ∈ l → P x) → filter P l = l.
Proof.
  induction l as [|x l IH]; intros Hall; [done|].
  rewrite filter_cons_True by (apply Hall; left).
  f_equal. apply IH. intros y Hy. apply Hall. by right.
Qed.

Lemma findTable_filter_gone id ts :
  findTable id (filter (λ t, Table.id t ≠ id) ts) = None.
Proof.
  apply findTable_None. intros t Ht. by apply list_elem_of_filter in Ht as [? _].
Qed.

Lemma findRelationship_None relId rs :
  findRelationship relId rs = None ↔ ∀ r, r ∈ rs → Relationship.id r ≠ relId.
Proof.
  unfold findRelationship. split.
  - intros Hfind r Hin Hid. apply list_elem_of_In in Hin.
    pose proof (find_none _ _ Hfind r Hin) as Hno. cbn in Hno.
    by apply bool_decide_eq_false in Hno.
  - intros Hall. induction rs as [|r rs IH]; [done|].
    cbn. rewrite bool_decide_false by (apply Hall; left).
    apply IH. intros r' Hin. apply Hall. by right.
Qed.

Lemma findRelationship_filter_gone relId rs :
  findRelationship relId (filter (λ r, Relationship.id r ≠ relId) rs) = None.
Proof.
  apply findRelationship_None. intros r Hr.
  by apply list_elem_of_filter in Hr as [? _].
Qed.

(** The records [deleteRelationship] leaves, whatever the record it
    found. *)
Lemma deleteRelationship_relationships relId st rel :
  findRelationship relId (relationships st) = Some rel →
  relationships (deleteRelationship relId st)
  = filter (λ r, Relationship.id r ≠ relId) (relationships st).
Proof.
  intros Hfind. unfold deleteRelationship. rewrite Hfind.
  case_bool_decide.
  - by destruct (List.find _ (tables st)).
  - by destruct (findTable _ (tables st)).
Qed.

(** X12. Deleting a table twice is deleting it once: after
    [deleteTable(id)] the store has no table of that id, and the handler
    does nothing for an id the store does not have, not even set the
    message. *)
Theorem deleteTable_idempotent (tableId : string) (st : State) :
  findTable tableId (tables (deleteTable tableId st)) = None
  ∧ deleteTable tableId (deleteTable tableId st) = deleteTable tableId st.
Proof.
  assert (findTable tableId (tables (deleteTable tableId st)) = None) as Hgone.
  { unfold deleteTable.
    destruct (findTable tableId (tables st)) eqn:Hfind; [|done].
    cbn. apply findTable_filter_gone. }
  split; [done|]. unfold deleteTable at 1. by rewrite Hgone.
Qed.

(** X13. Deleting a relationship twice is deleting it once: after
    [deleteRelationship(id)] no record has that id, and the handler does
    nothing for an id no record has, so no second table and no further
    column is removed. *)
Theorem deleteRelationship_idempotent (relId : string) (st : State) :
  findRelationship relId (relationships (deleteRelationship relId st)) = None
  ∧ deleteRelationship relId (deleteRelationship relId st)
    = deleteRelationship relId st.
Proof.
  assert (findRelationship relId (relationships (deleteRelationship relId st))
          = None) as Hgone.
  { destruct (findRelationship relId (relationships st)) as [rel|] eqn:Hfind.
    - rewrite (deleteRelationship_relationships _ _ _ Hfind).
      apply findRelationship_filter_gone.
    - unfold deleteRelationship. by rewrite Hfind. }
  split; [done|]. unfold deleteRelationship at 1. by rewrite Hgone.
Qed.

(** X14. [deleteTable] keeps the ends of the relationships in the store:
    if both ends of every record are ids of tables, they are after the
    handler, the records of the deleted table being gone with it. *)
Theorem deleteTable_keeps_endpoints (tableId : string) (st : State) :
  endpointsExist (tables st) (relationships st) →
  endpointsExist (tables (deleteTable tableId st))
                 (relationships (deleteTable tableId st)).
Proof.
  intros Hends. unfold deleteTable.
  destruct (findTable tableId (tables st)) eqn:Hfind; [|done].
  cbn. intros r Hr. apply list_elem_of_filter in Hr as [[Hp Hc] Hr].
  destruct (Hends r Hr). by rewrite !findTable_filter_ne.
Qed.

(** X15. [deleteRelationship(id)], when the store resolves [id] to a
    record [rel] that is not [MANY_TO_MANY], removes from the child of
    [rel] every field that is a foreign key into the parent of [rel],
    whichever relationship it came from, and keeps the child's other
    fields in their order; every other id resolves to the table it did,
    the store has as many tables as before, [rel] is gone and the
    records of another id are kept. *)
Theorem deleteRelationship_unlinks (relId : string) (st : State)
    (rel : Relationship.t) :
  findRelationship relId (relationships st) = Some rel →
  Relationship.type rel ≠ MANY_TO_MANY →
  let st' := deleteRelationship relId st in
  (rel ∉ relationships st')
  ∧ (∀ r, r ∈ relationships st → Relationship.id r ≠ relId →
          r ∈ relationships st')
  ∧ length (tables st') = length (tables st)
  ∧ (∀ id, id ≠ Relationship.childTableId rel →
           findTable id (tables st') = findTable id (tables st))
  ∧ (∀ child,
       findTable (Relationship.childTableId rel) (tables st) = Some child →
       ∃ child',
         findTable (Relationship.childTableId rel) (tables st') = Some child'
         ∧ Table.name child' = Table.name child
         ∧ (∀ f, f ∈ Table.fields child' ↔
                 f ∈ Table.fields child
                 ∧ ¬ keyInto (Relationship.parentTableId rel) f)
         ∧ Table.fields child' `sublist_of` Table.fields child).
Proof.
  intros Hfind Htype st'.
  assert (relationships st'
          = filter (λ r, Relationship.id r ≠ relId) (relationships st)) as Hrels
    by (by apply (deleteRelationship_relationships _ _ rel)).
  pose proof Hfind as Hid. apply find_some in Hid as [_ Hid].
  apply bool_decide_eq_true in Hid.
  split; [|split].
  { rewrite Hrels, list_elem_of_filter. tauto. }
  { intros r Hr Hne. rewrite Hrels. by apply list_elem_of_filter. }
  subst st'. unfold deleteRelationship.
  rewrite Hfind, (bool_decide_false _ Htype).
  destruct (findTable (Relationship.childTableId rel) (tables st))
    as [child|] eqn:Hchild.
  2: { cbn. split_and!; done. }
  destruct (findTable_Some _ _ _ Hchild) as [_ Hidc].
  cbn. split_and!.
  - by rewrite length_fmap.
  - intros id Hne. rewrite <-Hidc in Hne. by apply findTable_replace_ne.
  - intros ? [= <-]. eexists. split; [|split_and!].
    + rewrite <-Hidc. rewrite <-Hidc in Hchild. by apply findTable_replace.
    + done.
    + intros f. cbn. rewrite list_elem_of_filter. unfold keyInto. tauto.
    + apply sublist_filter.
Qed.

(** X16. [deleteRelationship] keeps the ends of the relationships in the
    store when the record it resolves is not [MANY_TO_MANY]: tables lose
    columns, never their place in the store. *)
Theorem deleteRelationship_keeps_endpoints (relId : string) (st : State)
    (rel : Relationship.t) :
  findRelationship relId (relationships st) = Some rel →
  Relationship.type rel ≠ MANY_TO_MANY →
  endpointsExist (tables st) (relationships st) →
  endpointsExist (tables (deleteRelationship relId st))
                 (relationships (deleteRelationship relId st)).
Proof.
  intros Hfind Htype Hends r Hr.
  rewrite (deleteRelationship_relationships _ _ _ Hfind) in Hr.
  apply list_elem_of_filter in Hr as [_ Hr]. destruct (Hends r Hr) as [Hp Hc].
  unfold deleteRelationship. rewrite Hfind, (bool_decide_false _ Htype).
  destruct (findTable (Relationship.childTableId rel) (tables st));
    [|by split].
  cbn. split; apply findTable_fmap_is_Some; try done;
    intros u; by case_bool_decide.
Qed.

(** X17. [deleteRelationship] on a [MANY_TO_MANY] record removes the
    first table of the store that has a foreign key into either end,
    join table or not: when that table is an end of a record of another
    id, the record stays and its end is the id of no table. *)
Theorem deleteRelationship_many_to_many_orphans (relId : string) (st : State)
    (rel other : Relationship.t) (pre post : list Table.t) (j : Table.t) :
  findRelationship relId (relationships st) = Some rel →
  Relationship.type rel = MANY_TO_MANY →
  tables st = pre ++ j :: post →
  hasEndpointKey rel j →
  (∀ t, t ∈ pre → ¬ hasEndpointKey rel t) →
  other ∈ relationships st →
  Relationship.id other ≠ relId →
  Relationship.parentTableId other = Table.id j
  ∨ Relationship.childTableId other = Table.id j →
  let st' := deleteRelationship relId st in
  other ∈ relationships st'
  ∧ findTable (Table.id j) (tables st') = None
  ∧ ¬ endpointsExist (tables st') (relationships st').
Proof.
  intros Hfind Htype Htables Hj Hpre Hother Hne Hend st'.
  assert (other ∈ relationships st') as Hkept.
  { subst st'. rewrite (deleteRelationship_relationships _ _ _ Hfind).
    by apply list_elem_of_filter. }
  assert (findTable (Table.id j) (tables st') = None) as Hgone.
  { subst st'. unfold deleteRelationship.
    rewrite Hfind, Htype, bool_decide_true by done.
    assert (List.find (λ t, existsb (referencesEndpoint rel) (Table.fields t))
                      (tables st) = Some j) as ->.
    { rewrite Htables. clear Htables. induction pre as [|t pre IH].
      - cbn. apply existsb_referencesEndpoint in Hj. by rewrite Hj.
      - cbn. destruct (existsb _ (Table.fields t)) eqn:Ht.
        + apply existsb_referencesEndpoint in Ht.
          destruct (Hpre t); [by left|done].
        + apply IH. intros u Hu. apply Hpre. by right. }
    cbn. apply findTable_filter_gone. }
  split_and!; [done..|].
  intros Hends. destruct (Hends other Hkept) as [[? Hp] [? Hc]].
  destruct Hend as [Heq|Heq]; rewrite Heq in *; congruence.
Qed.

(** ** Linking and unlinking *)

Lemma findRelationship_app_fresh relId rs rel :
  (∀ r, r ∈ rs → Relationship.id r ≠ relId) →
  Relationship.id rel = relId →
  findRelationship relId (rs ++ [rel]) = Some rel.
Proof.
  intros Hfresh Hid. unfold findRelationship.
  induction rs as [|r rs IH]; cbn.
  - by rewrite bool_decide_true.
  - rewrite bool_decide_false by (apply Hfresh; left).
    apply IH. intros r' Hr'. apply Hfresh. by right.
Qed.

Lemma filter_app_fresh relId rs rel :
  (∀ r, r ∈ rs → Relationship.id r ≠ relId) →
  Relationship.id rel = relId →
  filter (λ r, Relationship.id r ≠ relId) (rs ++ [rel]) = rs.
Proof.
  intros Hfresh Hid.
  rewrite filter_app, (filter_all _ rs Hfresh).
  rewrite filter_cons_False by (by intros Hne). apply app_nil_r.
Qed.

(** Putting [child] back where [child'] was put restores the tables,
    when the id of [child] names one table. *)
Lemma replace_back (ts : list Table.t) (child child' : Table.t) :
  (∀ t, t ∈ ts → Table.id t = Table.id child → t = child) →
  Table.id child' = Table.id child →
  (λ t, if bool_decide (Table.id t = Table.id child') then child else t)
    <$> ((λ t, if bool_decide (Table.id t = Table.id child) then child' else t)
           <$> ts)
  = ts.
Proof.
  intros Hone Hid. induction ts as [|t ts IH]; [done|].
  rewrite !fmap_cons, IH by (intros u Hu; apply Hone; by right).
  f_equal. destruct (decide (Table.id t = Table.id child)) as [Ht|Ht].
  - rewrite (bool_decide_true _ Ht), bool_decide_true by done.
    symmetry. apply Hone; [by left|done].
  - rewrite (bool_decide_false _ Ht), bool_decide_false by congruence. done.
Qed.

(** X18. Deleting the relationship [saveRelationship] has just saved
    undoes it, for a [ONE_TO_ONE] or [ONE_TO_MANY] draft that added a
    column: when the parent has a field, the child had no field of
    the resolved name (the draft's [childField] trimmed if that is not
    empty, else ["{parent.name}_id"] in lower case; names compared
    without case) and no foreign key into the parent, its id names one
    table and the id
    drawn for the record is the id of no other record, the tables and
    the relationships after [deleteRelationship] are those before
    [saveRelationship]. *)
Theorem deleteRelationship_undoes_link (e : Entropy.t) (st : State)
    (d : RelDraft.t) (parent child : Table.t) :
  resolves st d parent child →
  RelDraft.type d ≠ MANY_TO_MANY →
  Table.fields parent ≠ [] →
  (∀ f, f ∈ Table.fields child →
        toLowerCase (Field.name f) ≠ toLowerCase (resolvedName d parent)) →
  (∀ f, f ∈ Table.fields child → ¬ keyInto (Table.id parent) f) →
  (∀ t, t ∈ tables st → Table.id t = Table.id child → t = child) →
  (∀ r, r ∈ relationships st → Relationship.id r ≠ Entropy.newId e 0) →
  ∃ st1,
    saveRelationship e st = Done st1
    ∧ tables (deleteRelationship (Entropy.newId e 0) st1) = tables st
    ∧ relationships (deleteRelationship (Entropy.newId e 0) st1)
      = relationships st.
Proof.
  rewrite <-fkName_resolvedName.
  intros Hres Htype Hfields Hnone Hnokey Hone Hfresh.
  pose proof Hres as (_ & _ & _ & _ & HA & HB).
  destruct (findTable_Some _ _ _ HA) as [_ HidA].
  destruct (findTable_Some _ _ _ HB) as [_ HidB].
  destruct (parentPK_is_Some parent Hfields) as [pk Hpk].
  assert (existsb (λ f, sameName (Field.name f) (fkName d parent))
                  (Table.fields child) = false) as Hhas.
  { apply not_true_is_false. rewrite existsb_sameName.
    intros (f & Hin & Heq). by apply (Hnone f). }
  enter_saveRelationship Hres.
  rewrite (bool_decide_false _ Htype), Hpk.
  unfold updatedChild. rewrite Hhas. cbn [negb].
  set (fk := foreignKeyField e (fkName d parent) pk parent (RelDraft.type d)).
  set (child' := Table.mk (Table.id child) (Table.name child)
                          (Table.fields child ++ [fk])).
  set (rel := relOfDraft d (Entropy.newId e 0) (Field.name pk)
                         (fkName d parent)).
  eexists. split; [reflexivity|].
  unfold deleteRelationship.
  cbn [tables relationships setMessage setShowRelModal setRelationships
       setTables].
  rewrite (findRelationship_app_fresh _ _ rel Hfresh eq_refl).
  rewrite bool_decide_false by done.
  assert (findTable (Relationship.childTableId rel)
            ((λ t, if bool_decide (Table.id t = Table.id child)
                   then child' else t) <$> tables st) = Some child') as ->.
  { cbn. rewrite <-HidB. rewrite <-HidB in HB. by apply findTable_replace. }
  cbn [tables relationships setMessage setShowRelModal setRelationships
       setTables].
  rewrite (filter_app_fresh _ _ rel Hfresh eq_refl).
  split; [|done].
  assert (Table.mk (Table.id child') (Table.name child')
            (filter (λ f, ¬ (truthy (Field.isForeignKey f) = true
                             ∧ Field.references f
                               = Some (Relationship.parentTableId rel)))
                    (Table.fields child'))
          = child) as ->.
  { destruct child as [cid cname cfields]. cbn in *. f_equal.
    rewrite filter_app, (filter_cons_False _ fk).
    - rewrite filter_nil, app_nil_r. apply filter_all. intros f Hf.
      rewrite <-HidA. by apply Hnokey.
    - intros Hkey. apply Hkey. cbn. by rewrite HidA. }
  by apply replace_back.
Qed.

Lemma referencesEndpoint_true rel f :
  referencesEndpoint rel f = true
  ↔ keyInto (Relationship.parentTableId rel) f
    ∨ keyInto (Relationship.childTableId rel) f.
Proof.
  unfold referencesEndpoint, keyInto.
  rewrite andb_true_iff, bool_decide_eq_true, !elem_of_cons, elem_of_nil.
  tauto.
Qed.

(** X19. On a platform whose [toLowerCase] leaves the suffix of
    [uniqueName] alone, deleting the [MANY_TO_MANY] relationship
    [saveRelationship] has just saved undoes it, when no table of the store has a foreign key
    into either end and the ids drawn for the join table and for the
    record are the ids of no other table and no other record: the
    tables and the relationships after [deleteRelationship] are those
    before [saveRelationship]. *)
Theorem deleteRelationship_undoes_join (e : Entropy.t) (st : State)
    (d : RelDraft.t) (A B : Table.t) :
  LowerKeepsSuffix →
  resolves st d A B →
  RelDraft.type d = MANY_TO_MANY →
  (∀ t f, t ∈ tables st → f ∈ Table.fields t →
          ¬ keyInto (Table.id A) f ∧ ¬ keyInto (Table.id B) f) →
  (∀ t, t ∈ tables st → Table.id t ≠ Entropy.newId e 0) →
  (∀ r, r ∈ relationships st → Relationship.id r ≠ Entropy.newId e 1) →
  ∃ st1,
    saveRelationship e st = Done st1
    ∧ tables (deleteRelationship (Entropy.newId e 1) st1) = tables st
    ∧ relationships (deleteRelationship (Entropy.newId e 1) st1)
      = relationships st.
Proof.
  intros lower Hres Htype Hnokey Hfresht Hfreshr.
  pose proof Hres as (_ & _ & _ & _ & HA & HB).
  destruct (findTable_Some _ _ _ HA) as [_ HidA].
  destruct (findTable_Some _ _ _ HB) as [_ HidB].
  destruct (uniqueName_returns lower
              (Table.name A +:+ "_" +:+ Table.name B +:+ "_join") (tables st))
    as (m & Hname & _).
  enter_saveRelationship Hres.
  rewrite Htype, bool_decide_true, Hname by done.
  set (join := joinTable e _ A B).
  set (rel := relOfDraft d (Entropy.newId e 1) _ _).
  eexists. split; [reflexivity|].
  unfold deleteRelationship.
  cbn [tables relationships setMessage setShowRelModal setRelationships
       setTables].
  rewrite (findRelationship_app_fresh _ _ rel Hfreshr eq_refl).
  assert (Relationship.type rel = MANY_TO_MANY) as -> by done.
  rewrite bool_decide_true by done.
  assert (List.find (λ t, existsb (referencesEndpoint rel) (Table.fields t))
                    (tables st ++ [join]) = Some join) as ->.
  { assert (∀ t, t ∈ tables st →
              existsb (referencesEndpoint rel) (Table.fields t) = false)
      as Hnone.
    { intros t Ht. apply existsb_false. intros f Hf.
      apply not_true_is_false. rewrite referencesEndpoint_true. cbn.
      rewrite <-HidA, <-HidB. destruct (Hnokey t f Ht Hf). tauto. }
    assert (existsb (referencesEndpoint rel) (Table.fields join) = true)
      as Hjoin.
    { cbn. unfold referencesEndpoint. cbn. rewrite HidA.
      rewrite bool_decide_true; [done|apply list_elem_of_further,
        list_elem_of_here || apply list_elem_of_here]. }
    revert Hnone Hjoin. generalize (tables st) join. clear.
    intros ts join Hnone Hjoin. induction ts as [|t ts IH].
    - cbn. by rewrite Hjoin.
    - cbn [app List.find]. rewrite Hnone by left.
      apply IH. intros u Hu. apply Hnone. by right. }
  cbn [tables relationships setMessage setShowRelModal setRelationships
       setTables].
  rewrite (filter_app_fresh _ _ rel Hfreshr eq_refl). split; [|done].
  rewrite filter_app, (filter_cons_False _ join) by (by intros Hne).
  rewrite filter_nil, app_nil_r. apply filter_all. intros t Ht.
  by apply Hfresht.
Qed.

(** X20. [saveTable] keeps the ends of the relationships in the store:
    it appends a table or replaces tables under their own id, so an id
    that resolved before the handler resolves after it, and the records
    are untouched. *)
Theorem saveTable_keeps_endpoints (e : Entropy.t) (st st' : State) :
  endpointsExist (tables st) (relationships st) →
  saveTable e st = Done st' →
  endpointsExist (tables st') (relationships st')
  ∧ relationships st' = relationships st.
Proof.
  intros Hends Hrun.
  destruct (tableDraft st) as [d|] eqn:Hd.
  2: { unfold saveTable in Hrun. by rewrite Hd in Hrun. }
  destruct (saveTable_cases e st d Hd)
    as [(msg & _ & Hmsg)|(_ & _ & Hcommit)].
  { rewrite Hmsg in Hrun. by injection Hrun as <-. }
  rewrite Hcommit in Hrun. injection Hrun as <-.
  assert (relationships (committed e d st) = relationships st) as Hrels.
  { unfold committed. destruct (editingTable st) as [[|c s]|]; done. }
  split; [|done]. rewrite Hrels.
  assert (∀ id, is_Some (findTable id (tables st)) →
                is_Some (findTable id (tables (committed e d st)))) as Hkeep.
  { intros id Hid. unfold committed.
    destruct (editingTable st) as [[|c s]|]; cbn;
      try (by apply findTable_app_is_Some).
    apply findTable_fmap_is_Some; [|done].
    intros t. by case_bool_decide. }
  intros r Hr. destruct (Hends r Hr). split; by apply Hkeep.
Qed.

(** ** Importing *)

(** X21. A document whose [tables] is missing or is not an array is not
    imported: the handler sets a message that starts with
    [Import failed: ] and leaves tables, relationships and dialect as
    they were. *)
Theorem importJSON_rejects (nullMessage : string) (data : json) (st : State) :
  (∀ items, prop "tables" data ≠ Some (JArr items)) →
  ∃ reason,
    importJSON nullMessage data st
    = Some (setMessage ("Import failed: " +:+ reason) st).
Proof.
  intros Hno. unfold importJSON.
  destruct data; try (by exists "Invalid file"); [by exists nullMessage|].
  destruct (prop "tables" (JObj props)) as [[]|] eqn:Ht;
    try (by exists "Invalid file").
  by destruct (Hno items).
Qed.

(** X22. A document with the tables of a project and no relationships
    and no dialect, or falsy ones, is imported whole: the tables of the
    designer become those of the document, the relationships become
    empty and the dialect becomes [postgres], whatever the designer held
    before. *)
Theorem importJSON_defaults (nullMessage : string) (data : json)
    (ts : list Table.t) (st : State) :
  prop "tables" data = Some (JArr (table_to_json <$> ts)) →
  truthy_json (prop "relationships" data) = false →
  truthy_json (prop "dialect" data) = false →
  ∃ st',
    importJSON nullMessage data st = Some st'
    ∧ tables st' = ts
    ∧ relationships st' = []
    ∧ dialect st' = postgres
    ∧ message st' = "Project imported".
Proof.
  intros Ht Hr Hd. unfold importJSON.
  destruct data; try discriminate.
  rewrite Ht, (mapM_fmap_Some _ _ _ table_of_to_json).
  assert (∀ v dflt, truthy_json v = false → or_json v dflt = dflt) as Hor.
  { intros [v|] dflt Hv; [|done]. unfold or_json. by rewrite Hv. }
  rewrite (Hor _ _ Hr), (Hor _ _ Hd). cbn.
  eexists. split; [reflexivity|]. done.
Qed.

(** ** Drafts *)

(** X23. Removing the field [addFieldToDraft] has just added gives the
    draft back, when the id drawn for the field is the id of no field of
    the draft. *)
Theorem removeFieldInDraft_undoes_add (e : Entropy.t) (st : State)
    (d : TableDraft.t) :
  tableDraft st = Some d →
  (∀ f, f ∈ TableDraft.fields d → Field.id f ≠ Entropy.newId e 0) →
  ∃ st1 st2,
    addFieldToDraft e st = Done st1
    ∧ removeFieldInDraft (Entropy.newId e 0) st1 = Done st2
    ∧ tableDraft st2 = Some d
    ∧ tables st2 = tables st
    ∧ relationships st2 = relationships st.
Proof.
  intros Hd Hfresh. unfold addFieldToDraft. rewrite Hd.
  eexists _, _. split; [reflexivity|].
  unfold removeFieldInDraft. cbn. split; [reflexivity|]. cbn.
  split; [|done].
  rewrite filter_app, (filter_all _ _ Hfresh), (filter_cons_False _ (blankField e))
    by (by intros Hne).
  rewrite filter_nil, app_nil_r. by destruct d.
Qed.

(** X24. A draft to which [addFieldToDraft] has added two fields is
    turned down by [saveTable] as long as neither is named: both have
    the empty name, and the handler sets one of its validation messages
    and nothing else. *)
Theorem saveTable_rejects_unnamed_fields (e1 e2 e : Entropy.t)
    (st st1 st2 : State) :
  addFieldToDraft e1 st = Done st1 →
  addFieldToDraft e2 st1 = Done st2 →
  ∃ msg,
    saveTable e st2 = Done (setMessage msg st2)
    ∧ msg ∈ tableErrors.
Proof.
  unfold addFieldToDraft. intros Hadd1 Hadd2.
  destruct (tableDraft st) as [d|] eqn:Hd; [|done].
  injection Hadd1 as <-. cbn in Hadd2. injection Hadd2 as <-.
  set (d2 := TableDraft.mk _ _).
  set (st2 := setTableDraft (Some d2) _).
  destruct (saveTable_cases e st2 d2 eq_refl)
    as [(msg & Hmsg & Hrun)|((_ & _ & _ & Hnodup) & _)].
  { by exists msg. }
  exfalso. unfold d2 in Hnodup. cbn in Hnodup.
  rewrite !fmap_app in Hnodup. cbn in Hnodup.
  apply NoDup_app in Hnodup as (_ & Hdisjoint & _).
  apply (Hdisjoint (toLowerCase EmptyString)).
  - apply elem_of_app. right. apply list_elem_of_here.
  - apply list_elem_of_here.
Qed.

(** X25. [updateFieldInDraft] patches the fields of the given id and no
    other: the draft keeps its name, the number and the ids of its
    fields in their order, and a field of another id is the field that
    was there; tables and relationships are untouched. *)
Theorem updateFieldInDraft_frame (fieldId : string) (p : FieldPatch)
    (st : State) (d : TableDraft.t) :
  tableDraft st = Some d →
  ∃ st' d',
    updateFieldInDraft fieldId p st = Done st'
    ∧ tableDraft st' = Some d'
    ∧ TableDraft.name d' = TableDraft.name d
    ∧ Field.id <$> TableDraft.fields d' = Field.id <$> TableDraft.fields d
    ∧ (∀ i f, TableDraft.fields d !! i = Some f →
              TableDraft.fields d' !! i
              = Some (if bool_decide (Field.id f = fieldId)
                      then patchField p f else f))
    ∧ tables st' = tables st
    ∧ relationships st' = relationships st.
Proof.
  intros Hd. unfold updateFieldInDraft. rewrite Hd.
  eexists _, _. split; [reflexivity|].
  cbn [tableDraft setTableDraft tables relationships TableDraft.name
       TableDraft.fields].
  split_and!; try done.
  - cbn [TableDraft.fields]. rewrite <-list_fmap_compose.
    apply list_fmap_ext. intros i f _. cbn.
    case_bool_decide; [|done]. by destruct p.
  - intros i f Hi. cbn [TableDraft.fields]. by rewrite list_lookup_fmap, Hi.
Qed.

(** ** Opening a modal, then saving *)

(** X26. Opening a table of a non-empty id for editing and saving the
    draft as it is changes no table: whether the draft passes the checks
    or not, the store has as many tables as before, every id resolves to
    the table it resolved to, and the relationships are untouched. *)
Theorem saveTable_after_openEditTable (e : Entropy.t) (tableId : string)
    (st : State) (t : Table.t) :
  findTable tableId (tables st) = Some t →
  tableId ≠ EmptyString →
  ∃ st',
    saveTable e (openEditTable tableId st) = Done st'
    ∧ length (tables st') = length (tables st)
    ∧ (∀ id, findTable id (tables st') = findTable id (tables st))
    ∧ relationships st' = relationships st.
Proof.
  intros Hfind Hid. unfold openEditTable. rewrite Hfind.
  set (d := TableDraft.mk (Table.name t) (Table.fields t)).
  set (st1 := setShowTableModal true _).
  destruct (saveTable_cases e st1 d eq_refl)
    as [(msg & _ & Hrun)|(_ & _ & Hrun)].
  { exists (setMessage msg st1). done. }
  exists (committed e d st1). split; [done|].
  unfold committed. cbn [editingTable st1 setShowTableModal setTableDraft
    setEditingTable]. rewrite (truthy_str_true _ Hid). cbn.
  destruct (findTable_Some _ _ _ Hfind) as [_ Hidt].
  assert (Table.mk tableId (Table.name t) (Table.fields t) = t) as ->
    by (destruct t; cbn in *; congruence).
  split_and!; [by rewrite length_fmap| |done].
  intros id. rewrite <-Hidt. destruct (decide (id = Table.id t)) as [->|Hne].
  - rewrite <-Hidt in Hfind. rewrite Hfind. by apply findTable_replace.
  - by apply findTable_replace_ne.
Qed.

(** X27. On a platform whose [toLowerCase] leaves the suffix of
    [uniqueName] alone and whose [trim] on ASCII strips ASCII white
    space: the draft [openCreateTable] proposes can be saved as it is
    when every table of the store has a name that [trim] leaves as it
    is: the name is [uniqueName('table', tables)], the draft has the
    default field, and [saveTable] appends it to the tables. *)
Theorem saveTable_after_openCreateTable (e e' : Entropy.t) (st : State) :
  LowerKeepsSuffix →
  TrimOnAscii →
  (∀ t, t ∈ tables st → trim (Table.name t) = Table.name t) →
  ∃ st1 st2 name,
    openCreateTable e st = Done st1
    ∧ uniqueName "table" (tables st) = Some name
    ∧ saveTable e' st1 = Done st2
    ∧ tables st2 = tables st ++ [Table.mk (Entropy.newId e' 0) name
                                          [DEFAULT_FIELD e]]
    ∧ relationships st2 = relationships st.
Proof.
  intros lower ascii Htrimmed.
  destruct (uniqueName_returns lower "table" (tables st))
    as (m & Hname & Hfree & _).
  unfold openCreateTable. rewrite Hname.
  set (d := TableDraft.mk (attempt "table" m) [DEFAULT_FIELD e]).
  set (st1 := setShowTableModal true _).
  exists st1, (committed e' d st1), (attempt "table" m).
  split_and!; [done|done| |done|done].
  apply saveTable_commits; [done| |].
  - split_and!.
    + change (trim (attempt "table" m) ≠ EmptyString).
      rewrite trim_attempt_table by done. by destruct m.
    + done.
    + exists (DEFAULT_FIELD e). split; [apply list_elem_of_here|done].
    + apply NoDup_singleton.
  - intros t Ht _.
    change (toLowerCase (trim (Table.name t))
            ≠ toLowerCase (trim (attempt "table" m))).
    rewrite trim_attempt_table, (Htrimmed t Ht) by done.
    intros Heq. apply Hfree. by exists t.
Qed.

(** X28. [uniqueName] compares names as they are and [saveTable]
    compares them trimmed. On a platform whose [toLowerCase] leaves the
    suffix of [uniqueName] alone and whose [trim] on ASCII strips ASCII
    white space: when the name of a table, trimmed, is [table] without
    case, and no table's name as it is is [table] without case,
    [openCreateTable] proposes [table] and [saveTable] turns the
    proposal down as a name that already exists. *)
Theorem saveTable_refuses_proposed_name (e e' : Entropy.t) (st : State)
    (padded : Table.t) :
  LowerKeepsSuffix →
  TrimOnAscii →
  padded ∈ tables st →
  toLowerCase (trim (Table.name padded)) = toLowerCase "table" →
  (∀ t, t ∈ tables st → toLowerCase (Table.name t) ≠ toLowerCase "table") →
  ∃ st1,
    openCreateTable e st = Done st1
    ∧ (TableDraft.name <$> tableDraft st1) = Some "table"
    ∧ saveTable e' st1 = Done (setMessage "Table name already exists" st1).
Proof.
  intros lower ascii Hpadded Hname Hraw.
  destruct (uniqueName_returns lower "table" (tables st))
    as (m & Hrun & _ & Hbusy).
  destruct m as [|m].
  2: { destruct (Hbusy 0 ltac:(lia)) as (t & Ht & Heq). by destruct (Hraw t). }
  unfold openCreateTable. rewrite Hrun. cbn [attempt].
  eexists. split; [reflexivity|]. split; [reflexivity|].
  unfold saveTable.
  cbn [tableDraft tables editingTable setShowTableModal setTableDraft
       setEditingTable TableDraft.name].
  assert (trim "table" = "table") as -> by (by rewrite ascii).
  cbn [truthy_str negb].
  destruct (existsb _ (tables st)) eqn:Hex; [done|]. exfalso.
  rewrite existsb_false in Hex. specialize (Hex padded Hpadded).
  rewrite (bool_decide_true _ Hname) in Hex.
  by rewrite bool_decide_true in Hex.
Qed.

(** X29. [openCreateRelationship] proposes to link the second table of
    the store to the first; saved as it is, when the two have different
    ids that are set and the first has a field, the draft leaves the
    second table with a column named after the first, its name being
    ["{name}_id"] with the name in lower case under case-insensitive
    comparison, and appends a [ONE_TO_MANY] record from the first to
    the second. The platform's [trim] is taken to strip ASCII white
    space on ASCII, the proposal having an empty [childField]. *)
Theorem saveRelationship_after_openCreateRelationship (e : Entropy.t)
    (st : State) (first second : Table.t) (rest : list Table.t) :
  TrimOnAscii →
  tables st = first :: second :: rest →
  Table.id first ≠ EmptyString →
  Table.id second ≠ EmptyString →
  Table.id first ≠ Table.id second →
  Table.fields first ≠ [] →
  ∃ st' child' f rel,
    saveRelationship e (openCreateRelationship st) = Done st'
    ∧ findTable (Table.id second) (tables st') = Some child'
    ∧ f ∈ Table.fields child'
    ∧ toLowerCase (Field.name f)
      = toLowerCase (toLowerCase (Table.name first) +:+ "_id")
    ∧ relationships st' = relationships st ++ [rel]
    ∧ Relationship.parentTableId rel = Table.id first
    ∧ Relationship.childTableId rel = Table.id second
    ∧ Relationship.type rel = ONE_TO_MANY.
Proof.
  intros ascii Htables Hfirst Hsecond Hdiffer Hfields.
  set (d := RelDraft.mk (Table.id first) (Table.id second) EmptyString
                        EmptyString ONE_TO_MANY).
  assert (openCreateRelationship st
          = setShowRelModal true (setRelDraft (Some d) st)) as ->.
  { unfold openCreateRelationship. by rewrite Htables. }
  set (st1 := setShowRelModal true _).
  assert (resolves st1 d first second) as Hres.
  { split_and!; try done; cbn; rewrite Htables; cbn.
    - by rewrite bool_decide_true.
    - rewrite bool_decide_false by done. by rewrite bool_decide_true. }
  assert (fkName d first = toLowerCase (Table.name first) +:+ "_id") as Hfk.
  { unfold fkName. cbn [d RelDraft.childField]. by rewrite ascii. }
  pose proof Hres as (_ & _ & _ & _ & _ & HB).
  destruct (parentPK_is_Some first Hfields) as [pk Hpk].
  enter_saveRelationship Hres.
  rewrite bool_decide_false, Hpk by done.
  assert (∃ f, f ∈ Table.fields
                     (updatedChild e (fkName d first) pk first second
                                   ONE_TO_MANY)
               ∧ toLowerCase (Field.name f)
                 = toLowerCase (toLowerCase (Table.name first) +:+ "_id"))
    as (f & Hf & Hname).
  { unfold updatedChild.
    destruct (existsb _ (Table.fields second)) eqn:Hhas; cbn [negb].
    - rewrite bool_decide_false by done.
      apply existsb_sameName in Hhas as (f & Hf & Heq).
      exists f. split; [exact Hf|]. by rewrite Heq, Hfk.
    - eexists. split; [apply elem_of_app; right; apply list_elem_of_here|].
      cbn [Field.name foreignKeyField]. by rewrite Hfk. }
  eexists _, _, f, _. split; [reflexivity|].
  cbn [tables relationships setMessage setShowRelModal setRelationships
       setTables].
  split; [apply findTable_replace; [exact HB|apply updatedChild_id]|].
  split; [exact Hf|]. split; [exact Hname|]. done.
Qed.

End properties.

(** * Examples *)

(** The statements above at sample projects whose names are ASCII, the
    platform being that of the ASCII range. *)

#[local] Existing Instance Ascii7.strings.

(** [users] is taken twice, in two cases, and [users_1] is free. *)
Lemma uniqueName_spec_witness :
  let list := [Sample.users; Table.mk "t7" "USERS" [Sample.pk "f0"]] in
  uniqueName "Users" list = Some "Users_1"
  ∧ ¬ collides "Users_1" list.
Proof.
  intros list.
  destruct (uniqueName_spec "Users" list ascii_lowerKeepsSuffix)
    as (name & Hrun & Hfree & _).
  vm_compute in Hrun. injection Hrun as <-.
  split; [reflexivity|exact Hfree].
Defined.

(** A draft without fields, in the sample project. *)
Lemma saveTable_rejects_invalid_witness :
  let st := Sample.withTableDraft (TableDraft.mk "audit" []) Sample.shop in
  ∃ st', saveTable Sample.entropy st = Done st'
         ∧ message st' ∈ tableErrors
         ∧ tables st' = tables st
         ∧ relationships st' = relationships st
         ∧ st' = setMessage (message st') st.
Proof.
  apply (saveTable_rejects_invalid Sample.entropy _ (TableDraft.mk "audit" [])).
  - reflexivity.
  - right; left; reflexivity.
Defined.

(** A [MANY_TO_MANY] draft between [users] and [tags] of the sample
    project. *)
Lemma saveRelationship_many_to_many_witness :
  let d := RelDraft.mk "t1" "t3" EmptyString EmptyString MANY_TO_MANY in
  let st := Sample.withRelDraft d Sample.shop in
  ∃ st', saveRelationship Sample.entropy st = Done st'
         ∧ length (tables st') = 4
         ∧ (Table.name <$> last (tables st')) = Some "users_tags_join".
Proof.
  intros d st.
  destruct (saveRelationship_many_to_many Sample.entropy st d
              Sample.users Sample.tags)
    as (st' & joinName & key & fa & fb & rel & Hrun & Hname & _ & _
        & Htables & _).
  - exact ascii_lowerKeepsSuffix.
  - repeat split; done.
  - reflexivity.
  - exists st'. split; [exact Hrun|].
    rewrite Htables. vm_compute in Hname. injection Hname as <-.
    split; reflexivity.
Defined.


(** A [ONE_TO_ONE] draft from [users] to the [orders] that already
    reference it, its [childField] left empty: the resolved name is
    [users_id], the column [orders] has. *)
Lemma saveRelationship_promotes_existing_witness :
  let st := Sample.withRelDraft Fixture.oneToOne Fixture.store in
  ∃ st' child',
    saveRelationship Sample.entropy st = Done st'
    ∧ findTable "t2" (tables st') = Some child'
    ∧ Table.fields child'
      = [Sample.pk "f2";
         Field.with_isUnique true (Sample.fk "f5" "users_id" "t1")].
Proof.
  intros st.
  destruct (saveRelationship_promotes_existing Sample.entropy st
              Fixture.oneToOne Sample.users Fixture.linked)
    as (st' & child' & Hrun & Hfind & _).
  - repeat split; done.
  - reflexivity.
  - discriminate.
  - exists (Sample.fk "f5" "users_id" "t1"). split; [|reflexivity].
    apply list_elem_of_further, list_elem_of_here.
  - exists st', child'. split; [exact Hrun|]. split; [exact Hfind|].
    vm_compute in Hrun. injection Hrun as <-.
    vm_compute in Hfind. by injection Hfind as <-.
Defined.

(** C4. A [ONE_TO_ONE] draft from a table that has no field, which
    [importJSON] lets into the store, to the [orders] that have the
    column of the resolved name: the handler looks for the parent's key,
    finds none and throws when it reads the key's name for the record,
    before any setter runs. The column is not made unique. *)
Theorem saveRelationship_one_to_one_fieldless :
  let bare := Table.mk "t1" "users" [] in
  let data :=
    JObj [("tables", JArr [table_to_json bare; table_to_json Fixture.linked])] in
  let st := Sample.withRelDraft Fixture.oneToOne
              (Sample.project [bare; Fixture.linked] []) in
  (tables <$> importJSON "null has no properties" data Sample.shop)
  = Some (tables st)
  ∧ resolves st Fixture.oneToOne bare Fixture.linked
  ∧ (∃ f, f ∈ Table.fields Fixture.linked
          ∧ toLowerCase (Field.name f)
            = toLowerCase (resolvedName Fixture.oneToOne bare))
  ∧ saveRelationship Sample.entropy st = Threw "TypeError".
Proof.
  intros bare data st. split; [reflexivity|].
  split; [repeat split; done|]. split; [|reflexivity].
  exists (Sample.fk "f5" "users_id" "t1"). split; [|reflexivity].
  apply list_elem_of_further, list_elem_of_here.
Qed.


(** Deleting [users] from a project in which [orders] references it. *)
Lemma deleteTable_spec_witness :
  let linked :=
    Table.mk "t2" "orders" [Sample.pk "f2"; Sample.fk "f5" "users_id" "t1"] in
  let rel := Relationship.mk "r1" "t1" "t2" "id" "users_id" ONE_TO_MANY in
  let st := Sample.project [Sample.users; linked] [rel] in
  tables (deleteTable "t1" st) = [linked]
  ∧ relationships (deleteTable "t1" st) = []
  ∧ findTable "t2" (tables (deleteTable "t1" st)) = Some linked.
Proof.
  intros linked rel st.
  destruct (deleteTable_spec "t1" st) as (_ & _ & _ & _ & Hframe & _).
  - exists Sample.users. split; [apply list_elem_of_here|reflexivity].
  - split; [reflexivity|]. split; [reflexivity|].
    rewrite Hframe by discriminate. reflexivity.
Defined.

(** Deleting the [MANY_TO_MANY] record between [users] and [tags]. *)
Lemma deleteRelationship_many_to_many_witness :
  let join :=
    Table.mk "t4" "users_tags_join"
      [Sample.pk "f6"; Sample.fk "f7" "users_id" "t1";
       Sample.fk "f8" "tags_id" "t3"] in
  let rel := Relationship.mk "r1" "t1" "t3" EmptyString EmptyString
                             MANY_TO_MANY in
  let st := Sample.project [Sample.users; Sample.tags; join] [rel] in
  tables (deleteRelationship "r1" st) = [Sample.users; Sample.tags]
  ∧ rel ∉ relationships (deleteRelationship "r1" st).
Proof.
  intros join rel st.
  destruct (deleteRelationship_many_to_many "r1" st rel) as (Hgone & _).
  - reflexivity.
  - reflexivity.
  - split; [reflexivity|exact Hgone].
Defined.


Lemma saveTable_creates_witness :
  let st := Sample.withTableDraft Fixture.audit Sample.shop in
  ∃ st', saveTable Sample.entropy st = Done st'
         ∧ (Table.name <$> tables st')
           = ["users"; "orders"; "tags"; "audit"].
Proof.
  intros st.
  destruct (saveTable_creates Sample.entropy st Fixture.audit)
    as (st' & Hrun & Htables & _).
  - reflexivity.
  - reflexivity.
  - split_and!; [discriminate|discriminate| |].
    + exists (Sample.pk "f9"). split; [apply list_elem_of_here|reflexivity].
    + apply (bool_decide_unpack _). vm_compute. exact I.
  - intros t Ht. apply list_elem_of_In in Ht. cbn in Ht.
    destruct Ht as [<-|[<-|[<-|[]]]]; vm_compute; discriminate.
  - exists st'. split; [exact Hrun|]. rewrite Htables. reflexivity.
Defined.

Lemma saveTable_updates_witness :
  let d := TableDraft.mk "Users" [Sample.pk "f1"; Sample.column "f9" "email" TEXT] in
  let st := Fixture.editing "t1" d Sample.shop in
  ∃ st', saveTable Sample.entropy st = Done st'
         ∧ (Table.name <$> tables st') = ["Users"; "orders"; "tags"].
Proof.
  intros d st.
  destruct (saveTable_updates Sample.entropy st d "t1")
    as (st' & Hrun & _).
  - reflexivity.
  - reflexivity.
  - discriminate.
  - split_and!; [discriminate|discriminate| |].
    + exists (Sample.pk "f1"). split; [apply list_elem_of_here|reflexivity].
    + apply (bool_decide_unpack _). vm_compute. exact I.
  - intros t Ht Hne. apply list_elem_of_In in Ht. cbn in Ht.
    destruct Ht as [<-|[<-|[<-|[]]]]; try (vm_compute; discriminate).
    by destruct Hne.
  - exists st'. split; [exact Hrun|].
    vm_compute in Hrun. by injection Hrun as <-.
Defined.

Lemma saveTable_rejects_taken_name_witness :
  let d := TableDraft.mk " USERS " [Sample.pk "f9"] in
  let st := Sample.withTableDraft d Sample.shop in
  saveTable Sample.entropy st
  = Done (setMessage "Table name already exists" st).
Proof.
  intros d st.
  destruct (saveTable_rejects_taken_name Sample.entropy st d Sample.users)
    as (msg & Hrun & Hmsg).
  - reflexivity.
  - apply list_elem_of_here.
  - discriminate.
  - reflexivity.
  - rewrite Hrun, Hmsg. reflexivity.
Defined.

(** Well-formedness of a table that is written out. *)
Ltac table_ok :=
  split_and!;
  [ discriminate | discriminate
  | eexists; split; [apply list_elem_of_here|reflexivity]
  | apply (bool_decide_unpack _); vm_compute; exact I ].

Lemma saveTable_keeps_tables_ok_witness :
  let st := Sample.withTableDraft Fixture.audit Sample.shop in
  Forall tableOk (tables (committed Sample.entropy Fixture.audit st)).
Proof.
  intros st.
  apply (saveTable_keeps_tables_ok Sample.entropy st).
  - repeat (apply List.Forall_cons; [table_ok|]). apply List.Forall_nil.
  - reflexivity.
Defined.

Lemma saveTable_keeps_names_distinct_witness :
  let st := Sample.withTableDraft Fixture.audit Sample.shop in
  namesDistinct (tables (committed Sample.entropy Fixture.audit st)).
Proof.
  intros st.
  apply (saveTable_keeps_names_distinct Sample.entropy st).
  - intros t u Ht Hu Hne.
    apply list_elem_of_In in Ht. apply list_elem_of_In in Hu. cbn in Ht, Hu.
    destruct Ht as [<-|[<-|[<-|[]]]], Hu as [<-|[<-|[<-|[]]]];
      try (by destruct Hne); vm_compute; discriminate.
  - discriminate.
  - reflexivity.
Defined.

Lemma saveRelationship_rejects_endpoints_witness :
  let d := RelDraft.mk "t1" "t7" EmptyString EmptyString ONE_TO_MANY in
  let st := Sample.withRelDraft d Sample.shop in
  saveRelationship Sample.entropy st
  = Done (setMessage "Parent or child table missing" st).
Proof.
  intros d st.
  destruct (saveRelationship_rejects_endpoints Sample.entropy st d)
    as (msg & Hrun & _).
  - reflexivity.
  - do 4 right. reflexivity.
  - rewrite Hrun. vm_compute in Hrun. by injection Hrun as <-.
Defined.

Lemma saveRelationship_fieldless_parent_witness :
  let bare := Table.mk "t5" "bare" [] in
  let d := RelDraft.mk "t5" "t2" EmptyString EmptyString ONE_TO_MANY in
  let st := Sample.withRelDraft d (Sample.project [bare; Sample.orders] []) in
  saveRelationship Sample.entropy st = Threw "TypeError".
Proof.
  intros bare d st.
  apply (saveRelationship_fieldless_parent Sample.entropy st d bare
           Sample.orders).
  - repeat split; done.
  - discriminate.
  - reflexivity.
Defined.

Lemma saveRelationship_relinks_witness :
  let st := Sample.withRelDraft Fixture.oneToMany Fixture.store in
  ∃ st', saveRelationship Sample.entropy st = Done st'
         ∧ tables st' = tables st
         ∧ length (relationships st') = 2.
Proof.
  intros st.
  destruct (saveRelationship_relinks Sample.entropy st Fixture.oneToMany
              Sample.users Fixture.linked) as (st' & rel & Hrun & _).
  - repeat split; done.
  - reflexivity.
  - discriminate.
  - exists (Sample.fk "f5" "users_id" "t1").
    split; [apply list_elem_of_further, list_elem_of_here|reflexivity].
  - exists st'. split; [exact Hrun|].
    vm_compute in Hrun. injection Hrun as <-. split; reflexivity.
Defined.




Lemma saveRelationship_keeps_endpoints_witness :
  let st := Sample.withRelDraft Fixture.oneToOne Fixture.store in
  ∃ st', saveRelationship Sample.entropy st = Done st'
         ∧ endpointsExist (tables st') (relationships st').
Proof.
  intros st.
  assert (∃ st', saveRelationship Sample.entropy st = Done st') as [st' Hrun].
  { eexists. vm_compute. reflexivity. }
  exists st'. split; [exact Hrun|].
  apply (saveRelationship_keeps_endpoints Sample.entropy st st'); [|exact Hrun].
  intros r Hr. apply list_elem_of_singleton in Hr as ->.
  split; by eexists.
Defined.

Lemma deleteTable_keeps_endpoints_witness :
  endpointsExist (tables (deleteTable "t1" Fixture.store))
                 (relationships (deleteTable "t1" Fixture.store)).
Proof.
  apply (deleteTable_keeps_endpoints "t1" Fixture.store).
  intros r Hr. apply list_elem_of_singleton in Hr as ->.
  split; by eexists.
Defined.

Lemma deleteRelationship_unlinks_witness :
  tables (deleteRelationship "r1" Fixture.store)
  = [Sample.users; Table.mk "t2" "orders" [Sample.pk "f2"]]
  ∧ Fixture.owns ∉ relationships (deleteRelationship "r1" Fixture.store).
Proof.
  destruct (deleteRelationship_unlinks "r1" Fixture.store Fixture.owns)
    as (Hgone & _).
  - reflexivity.
  - discriminate.
  - split; [reflexivity|exact Hgone].
Defined.

Lemma deleteRelationship_keeps_endpoints_witness :
  let extra := Relationship.mk "r3" "t1" "t2" "id" "buyer_id" ONE_TO_ONE in
  let st := Sample.project [Sample.users; Fixture.linked] [Fixture.owns; extra] in
  endpointsExist (tables (deleteRelationship "r1" st))
                 (relationships (deleteRelationship "r1" st)).
Proof.
  intros extra st.
  apply (deleteRelationship_keeps_endpoints "r1" st Fixture.owns).
  - reflexivity.
  - discriminate.
  - intros r Hr. apply list_elem_of_In in Hr. cbn in Hr.
    destruct Hr as [<-|[<-|[]]]; split; by eexists.
Defined.

Lemma deleteRelationship_many_to_many_orphans_witness :
  let st := Sample.project
              [Sample.users; Fixture.linked; Sample.tags; Fixture.join]
              [Fixture.owns; Fixture.tagged] in
  (Table.name <$> tables (deleteRelationship "r2" st))
  = ["users"; "tags"; "users_tags_join"]
  ∧ Fixture.owns ∈ relationships (deleteRelationship "r2" st).
Proof.
  intros st.
  destruct (deleteRelationship_many_to_many_orphans "r2" st Fixture.tagged
              Fixture.owns [Sample.users] [Sample.tags; Fixture.join]
              Fixture.linked) as (Hkept & _).
  - reflexivity.
  - reflexivity.
  - reflexivity.
  - exists (Sample.fk "f5" "users_id" "t1").
    split_and!; [apply list_elem_of_further, list_elem_of_here|done|by left].
  - intros t Ht. apply list_elem_of_singleton in Ht as ->.
    intros (f & Hf & Hfk & _). apply list_elem_of_singleton in Hf as ->. done.
  - apply list_elem_of_here.
  - discriminate.
  - by right.
  - split; [reflexivity|exact Hkept].
Defined.

Lemma deleteRelationship_undoes_link_witness :
  let st := Sample.withRelDraft Fixture.oneToMany Sample.shop in
  ∃ st1,
    saveRelationship Sample.entropy st = Done st1
    ∧ tables (deleteRelationship "uuid-0" st1) = tables st
    ∧ relationships (deleteRelationship "uuid-0" st1) = relationships st.
Proof.
  intros st.
  apply (deleteRelationship_undoes_link Sample.entropy st Fixture.oneToMany
           Sample.users Sample.orders).
  - repeat split; done.
  - discriminate.
  - discriminate.
  - intros f Hf. apply list_elem_of_In in Hf. cbn in Hf.
    destruct Hf as [<-|[<-|[]]]; vm_compute; discriminate.
  - intros f Hf. apply list_elem_of_In in Hf. cbn in Hf.
    destruct Hf as [<-|[<-|[]]]; intros [Hfk _]; discriminate.
  - intros t Ht Hid. apply list_elem_of_In in Ht. cbn in Ht.
    destruct Ht as [<-|[<-|[<-|[]]]]; try reflexivity; discriminate.
  - intros r Hr. by apply elem_of_nil in Hr.
Defined.

Lemma deleteRelationship_undoes_join_witness :
  let st := Sample.withRelDraft Fixture.manyToMany Sample.shop in
  ∃ st1,
    saveRelationship Sample.entropy st = Done st1
    ∧ tables (deleteRelationship "uuid-1" st1) = tables st
    ∧ relationships (deleteRelationship "uuid-1" st1) = relationships st.
Proof.
  intros st.
  apply (deleteRelationship_undoes_join Sample.entropy st Fixture.manyToMany
           Sample.users Sample.tags).
  - exact ascii_lowerKeepsSuffix.
  - repeat split; done.
  - reflexivity.
  - intros t f Ht Hf. apply list_elem_of_In in Ht. cbn in Ht.
    destruct Ht as [<-|[<-|[<-|[]]]];
      apply list_elem_of_In in Hf; cbn in Hf;
      repeat (destruct Hf as [<-|Hf]; [split; intros [Hfk _]; discriminate|]);
      destruct Hf.
  - intros t Ht. apply list_elem_of_In in Ht. cbn in Ht.
    destruct Ht as [<-|[<-|[<-|[]]]]; discriminate.
  - intros r Hr. by apply elem_of_nil in Hr.
Defined.

Lemma saveTable_keeps_endpoints_witness :
  let d := TableDraft.mk "customers" [Sample.pk "f1"] in
  let st := Fixture.editing "t1" d Fixture.store in
  endpointsExist (tables (committed Sample.entropy d st))
                 (relationships (committed Sample.entropy d st)).
Proof.
  intros d st.
  apply (saveTable_keeps_endpoints Sample.entropy st).
  - intros r Hr. apply list_elem_of_singleton in Hr as ->.
    split; by eexists.
  - reflexivity.
Defined.

Lemma importJSON_rejects_witness :
  let data := JObj [("tables", JStr "users"); ("dialect", JStr "mysql")] in
  ∃ reason,
    importJSON "null has no properties" data Fixture.store
    = Some (setMessage ("Import failed: " +:+ reason) Fixture.store).
Proof.
  intros data.
  apply (importJSON_rejects "null has no properties" data Fixture.store).
  intros items. discriminate.
Defined.

Lemma importJSON_defaults_witness :
  let data := JObj [("tables", JArr [table_to_json Sample.tags]);
                    ("relationships", JNull)] in
  ∃ st',
    importJSON "null has no properties" data Fixture.store = Some st'
    ∧ tables st' = [Sample.tags]
    ∧ relationships st' = []
    ∧ dialect st' = postgres.
Proof.
  intros data.
  destruct (importJSON_defaults "null has no properties" data [Sample.tags]
              Fixture.store) as (st' & Hrun & Ht & Hr & Hd & _).
  - reflexivity.
  - reflexivity.
  - reflexivity.
  - exists st'. done.
Defined.

Lemma removeFieldInDraft_undoes_add_witness :
  let st := Sample.withTableDraft Fixture.audit Sample.shop in
  ∃ st1 st2,
    addFieldToDraft Sample.entropy st = Done st1
    ∧ removeFieldInDraft "uuid-0" st1 = Done st2
    ∧ tableDraft st2 = Some Fixture.audit.
Proof.
  intros st.
  destruct (removeFieldInDraft_undoes_add Sample.entropy st Fixture.audit)
    as (st1 & st2 & Hadd & Hremove & Hdraft & _).
  - reflexivity.
  - intros f Hf. apply list_elem_of_In in Hf. cbn in Hf.
    destruct Hf as [<-|[<-|[]]]; discriminate.
  - exists st1, st2. done.
Defined.

Lemma saveTable_rejects_unnamed_fields_witness :
  let st := Sample.withTableDraft Fixture.audit Sample.shop in
  ∃ st1 st2 msg,
    addFieldToDraft Sample.entropy st = Done st1
    ∧ addFieldToDraft Sample.entropy st1 = Done st2
    ∧ saveTable Sample.entropy st2 = Done (setMessage msg st2)
    ∧ tables (setMessage msg st2) = tables Sample.shop.
Proof.
  intros st.
  assert (∃ st1, addFieldToDraft Sample.entropy st = Done st1) as [st1 H1]
    by (by eexists).
  assert (∃ st2, addFieldToDraft Sample.entropy st1 = Done st2) as [st2 H2].
  { vm_compute in H1. injection H1 as <-. by eexists. }
  destruct (saveTable_rejects_unnamed_fields Sample.entropy Sample.entropy
              Sample.entropy st st1 st2 H1 H2) as (msg & Hrun & _).
  exists st1, st2, msg. split_and!; [done..|].
  vm_compute in H1. injection H1 as <-.
  vm_compute in H2. injection H2 as <-. reflexivity.
Defined.

Lemma updateFieldInDraft_frame_witness :
  let st := Sample.withTableDraft Fixture.audit Sample.shop in
  ∃ st' d',
    updateFieldInDraft "f10" (PatchName "remark") st = Done st'
    ∧ tableDraft st' = Some d'
    ∧ Field.name <$> TableDraft.fields d' = ["id"; "remark"].
Proof.
  intros st.
  destruct (updateFieldInDraft_frame "f10" (PatchName "remark") st
              Fixture.audit) as (st' & d' & Hrun & Hdraft & _).
  - reflexivity.
  - exists st', d'. split; [exact Hrun|]. split; [exact Hdraft|].
    vm_compute in Hrun. injection Hrun as <-.
    cbn in Hdraft. by injection Hdraft as <-.
Defined.

Lemma saveTable_after_openEditTable_witness :
  ∃ st',
    saveTable Sample.entropy (openEditTable "t2" Fixture.store) = Done st'
    ∧ tables st' = tables Fixture.store.
Proof.
  destruct (saveTable_after_openEditTable Sample.entropy "t2" Fixture.store
              Fixture.linked) as (st' & Hrun & _).
  - reflexivity.
  - discriminate.
  - exists st'. split; [exact Hrun|].
    vm_compute in Hrun. by injection Hrun as <-.
Defined.

Lemma saveTable_after_openCreateTable_witness :
  let st := Sample.project [Sample.users; Table.mk "t6" "Table" [Sample.pk "f0"]]
                           [] in
  ∃ st1 st2,
    openCreateTable Sample.entropy st = Done st1
    ∧ saveTable Sample.entropy st1 = Done st2
    ∧ (Table.name <$> tables st2) = ["users"; "Table"; "table_1"].
Proof.
  intros st.
  destruct (saveTable_after_openCreateTable Sample.entropy Sample.entropy st)
    as (st1 & st2 & name & Hopen & Hname & Hsave & Htables & _).
  - exact ascii_lowerKeepsSuffix.
  - exact ascii_trimOnAscii.
  - intros t Ht. apply list_elem_of_In in Ht. cbn in Ht.
    destruct Ht as [<-|[<-|[]]]; reflexivity.
  - exists st1, st2. split; [exact Hopen|]. split; [exact Hsave|].
    rewrite Htables. vm_compute in Hname. injection Hname as <-. reflexivity.
Defined.

Lemma saveTable_refuses_proposed_name_witness :
  let padded := Table.mk "t6" " Table" [Sample.pk "f0"] in
  let st := Sample.project [Sample.users; padded] [] in
  ∃ st1,
    openCreateTable Sample.entropy st = Done st1
    ∧ saveTable Sample.entropy st1
      = Done (setMessage "Table name already exists" st1).
Proof.
  intros padded st.
  destruct (saveTable_refuses_proposed_name Sample.entropy Sample.entropy st
              padded) as (st1 & Hopen & _ & Hsave).
  - exact ascii_lowerKeepsSuffix.
  - exact ascii_trimOnAscii.
  - apply list_elem_of_further, list_elem_of_here.
  - reflexivity.
  - intros t Ht. apply list_elem_of_In in Ht. cbn in Ht.
    destruct Ht as [<-|[<-|[]]]; vm_compute; discriminate.
  - exists st1. done.
Defined.

Lemma saveRelationship_after_openCreateRelationship_witness :
  ∃ st' child',
    saveRelationship Sample.entropy (openCreateRelationship Sample.shop)
    = Done st'
    ∧ findTable "t2" (tables st') = Some child'
    ∧ (Field.name <$> Table.fields child') = ["id"; "total"; "users_id"].
Proof.
  destruct (saveRelationship_after_openCreateRelationship Sample.entropy
              Sample.shop Sample.users Sample.orders [Sample.tags])
    as (st' & child' & f & rel & Hrun & Hfind & _).
  - exact ascii_trimOnAscii.
  - reflexivity.
  - discriminate.
  - discriminate.
  - discriminate.
  - discriminate.
  - exists st', child'. split; [exact Hrun|]. split; [exact Hfind|].
    vm_compute in Hrun. injection Hrun as <-.
    vm_compute in Hfind. by injection Hfind as <-.
Defined.
